(** * BusTub buffer pool: LRU-K replacer, disk scheduler, buffer pool manager

    A shallow embedding of
      - src/buffer/lru_k_replacer.cpp
      - src/storage/disk/disk_scheduler.cpp
      - src/buffer/buffer_pool_manager.cpp
    and the properties of the specification that are settled on it.

    Conventions.
      - [size_t] values are [Z] with the wrap-around modulo 2^64 written out;
        [page_id_t], [frame_id_t] and [int] are [Z].
      - The embedding is the sequential semantics of one call at a time.  The
        latches ([latch_.lock()], [std::unique_lock]) matter in it where an
        operation that holds a latch calls an operation that takes the same
        latch: [RecordAccess] calling [Evict] and [FlushAllPages] calling
        [FlushPage].  There the latch is modelled, by [lock_latch].
      - A call either returns ([Ok]), runs into undefined behaviour
        ([Undefined]: an index outside the frame array, an invalid iterator, a
        mutex locked by the thread that holds it) or is stopped by
        [BUSTUB_ASSERT] ([Aborted]). *)

From stdpp Require Import base option list gmap sorting.
From Stdlib Require Import ZArith Lia.

Open Scope Z_scope.

(** ** Outcomes of a call *)

Inductive outcome (A : Type) : Type :=
  | Ok (a : A)
  | Undefined
  | Aborted.
Arguments Ok {A} a.
Arguments Undefined {A}.
Arguments Aborted {A}.

Definition obind {A B} (f : A → outcome B) (m : outcome A) : outcome B :=
  match m with
  | Ok a => f a
  | Undefined => Undefined
  | Aborted => Aborted
  end.

#[global] Instance outcome_ret : MRet outcome := @Ok.
#[global] Instance outcome_bind : MBind outcome := @obind.

(** Taking a latch that the calling thread holds ([latch_held]) or does not
    hold.  The latch of the pool is a [std::mutex]
    ([std::unique_lock<std::mutex> lock(latch_)]), and to lock a [std::mutex]
    in the thread that owns it is undefined behaviour: the thread waits for
    itself. *)
Definition lock_latch {A} (latch_held : bool) (body : outcome A) : outcome A :=
  if latch_held then Undefined else body.

(** ** Machine integers *)

Definition SIZE_MODULUS : Z := 2 ^ 64.

(** [x++] and [x--] on a [size_t]. *)
Definition size_inc (x : Z) : Z := (x + 1) mod SIZE_MODULUS.
Definition size_dec (x : Z) : Z := (x - 1) mod SIZE_MODULUS.

(** ** LRU-K node *)

Module LRUKNode.
(** Modelled from the spec: the class [LRUKNode] is declared in
    buffer/lru_k_replacer.h, which is not part of the sources.  Section 3:
    a node holds [frame_id], an [is_evictable] flag (false on first record)
    and the history, "a bounded queue of the most recent K access
    timestamps, oldest first". *)
Record t : Type := mk {
  history_ : list Z;
  k_ : Z;
  fid_ : Z;
  is_evictable_ : bool
}.
End LRUKNode.
Import LRUKNode (history_, fid_, is_evictable_).

Abbreviation LRUKNode := LRUKNode.t.

(** Modelled from the spec: the constructor [LRUKNode(frame_id, k)]; the
    history is empty and the node is not evictable. *)
Definition new_LRUKNode (fid k : Z) : LRUKNode :=
  LRUKNode.mk [] k fid false.

(** Modelled from the spec: [LRUKNode::PushHistory], section 4.2: "push the
    timestamp (evicting the oldest from its history if already K entries)". *)
Definition PushHistory (ts : Z) (n : LRUKNode) : LRUKNode :=
  let h := history_ n in
  let h' := if Z.of_nat (length h) =? LRUKNode.k_ n then tail h else h in
  LRUKNode.mk (h' ++ [ts]) (LRUKNode.k_ n) (fid_ n) (is_evictable_ n).

(** Modelled from the spec: [LRUKNode::SetEvictable]. *)
Definition node_SetEvictable (b : bool) (n : LRUKNode) : LRUKNode :=
  LRUKNode.mk (history_ n) (LRUKNode.k_ n) (fid_ n) b.

(** Modelled from the spec: the state in which [std::move] leaves a node
    (line 46): the history, a queue of the standard library, has been taken
    and is empty; the scalar fields are copied. *)
Definition moved_from (n : LRUKNode) : LRUKNode :=
  LRUKNode.mk [] (LRUKNode.k_ n) (fid_ n) (is_evictable_ n).

(** Modelled from the spec: "a frame with fewer than K accesses has
    K-distance = +infinity" (section 4.2). *)
Definition fewer_than_k (n : LRUKNode) : bool :=
  Z.of_nat (length (history_ n)) <? LRUKNode.k_ n.

(** Modelled from the spec: the oldest timestamp of a node, the front of
    its history. *)
Definition oldest (n : LRUKNode) : option Z := head (history_ n).

(** Modelled from the spec: the K-th most recent timestamp of a node, the
    K-th from the back of its history. *)
Definition kth_recent (n : LRUKNode) : option Z :=
  history_ n !! (length (history_ n) - Z.to_nat (LRUKNode.k_ n))%nat.

(** Modelled from the spec: "is earlier" between two timestamps; a
    timestamp that does not exist is not compared. *)
Definition ts_earlier (a b : option Z) : bool :=
  match a, b with
  | Some x, Some y => x <? y
  | _, _ => false
  end.

(** Modelled from the spec: [LRUKNode::operator<], the "ordering discipline"
    of section 4.2.  [node_lt n1 n2] says that [n1] has greater eviction
    priority than [n2]: "both have < K entries and N1's oldest timestamp is
    earlier, OR N1 has < K and N2 has >= K, OR both have >= K entries and
    N1's K-th-most-recent timestamp is earlier". *)
Definition node_lt (n1 n2 : LRUKNode) : bool :=
  match fewer_than_k n1, fewer_than_k n2 with
  | true, true => ts_earlier (oldest n1) (oldest n2)
  | true, false => true
  | false, true => false
  | false, false => ts_earlier (kth_recent n1) (kth_recent n2)
  end.

(** ** LRU-K replacer *)

(** [node_list_] is the [std::list<LRUKNode>]; [node_store_] is the
    [unordered_map] from frame ids to list iterators.  An iterator stored
    under key [f] designates the node of [node_list_] whose [fid_] is [f], so
    the map is represented by its key set and an iterator is resolved by
    [deref]. *)
Record LRUKReplacer : Type := mkReplacer {
  node_list_ : list LRUKNode;
  node_store_ : gset Z;
  current_timestamp_ : Z;
  curr_size_ : Z;
  replacer_size_ : Z;
  k_ : Z
}.

(** [LRUKReplacer::LRUKReplacer(num_frames, k)] *)
Definition new_LRUKReplacer (num_frames k : Z) : LRUKReplacer :=
  mkReplacer [] ∅ 0 0 num_frames k.

(** The first element satisfying [P], with what is before and after it. *)
Fixpoint split_first {A} (P : A → bool) (l : list A) : option (list A * A * list A) :=
  match l with
  | [] => None
  | x :: l' =>
      if P x then Some ([], x, l')
      else match split_first P l' with
           | Some (pre, y, post) => Some (x :: pre, y, post)
           | None => None
           end
  end.

(** Dereferencing the iterator stored for frame [f]. *)
Definition deref (f : Z) (l : list LRUKNode) : outcome (list LRUKNode * LRUKNode * list LRUKNode) :=
  match split_first (λ n, fid_ n =? f) l with
  | Some z => Ok z
  | None => Undefined
  end.

(** [LRUKReplacer::Insert(start, node)]: the argument list is what [start]
    points at and everything after it. *)
Fixpoint Insert (from_start : list LRUKNode) (node : LRUKNode) : list LRUKNode :=
  match from_start with
  | [] => [node]
  | x :: rest => if node_lt x node then x :: Insert rest node else node :: from_start
  end.

(** [LRUKReplacer::Evict]: [Some f] stands for [true] with [*frame_id = f]. *)
Definition Evict (r : LRUKReplacer) : outcome (option Z * LRUKReplacer) :=
  match split_first is_evictable_ (node_list_ r) with
  | Some (pre, victim, post) =>
      let frame_id := fid_ victim in
      if decide (frame_id ∈ node_store_ r) then
        Ok (Some frame_id,
            mkReplacer (pre ++ post) (node_store_ r ∖ {[frame_id]})
                       (current_timestamp_ r) (size_dec (curr_size_ r))
                       (replacer_size_ r) (k_ r))
      else Undefined (* [node_store_.erase(node_store_.end())] *)
  | None => Ok (None, r)
  end.

(** Modelled from the spec: [LRUKReplacer::Evict], called with the
    replacer's [latch_] free or held.  The type of [latch_] is declared in
    buffer/lru_k_replacer.h, which is not part of the sources; section 5
    calls it "an independent mutex".  [Evict] starts with [latch_.lock()]
    (line 21): called by a thread that holds the mutex it has undefined
    behaviour and does not return. *)
Definition Evict_locking (latch_held : bool) (r : LRUKReplacer)
  : outcome (option Z * LRUKReplacer) :=
  lock_latch latch_held (Evict r).

(** [LRUKReplacer::RecordAccess].  With more than [replacer_size_] nodes in
    the list it calls [Evict] (line 55) while it holds [latch_], locked in
    line 37 and unlocked in line 57. *)
Definition RecordAccess (frame_id : Z) (r : LRUKReplacer) : outcome LRUKReplacer :=
  nodes ←
    (if decide (frame_id ∈ node_store_ r) then
       '(pre, old, post) ← deref frame_id (node_list_ r);
       let new_node := PushHistory (current_timestamp_ r) old in
       (* [Insert(it->second, new_node)] starts on the moved-from node, which
          [erase(it->second)] then takes out: it is first in what follows
          [pre] if the walk went past it, second if [new_node] was put in
          front of it. *)
       let inserted := Insert (moved_from old :: post) new_node in
       let old_position := if node_lt (moved_from old) new_node then 0%nat else 1%nat in
       Ok (pre ++ delete old_position inserted)
     else
       let new_node := PushHistory (current_timestamp_ r) (new_LRUKNode frame_id (k_ r)) in
       Ok (Insert (node_list_ r) new_node));
  let r1 := mkReplacer nodes ({[frame_id]} ∪ node_store_ r)
                       (size_inc (current_timestamp_ r)) (curr_size_ r)
                       (replacer_size_ r) (k_ r) in
  (* lines 53-56: the result of the nested [Evict] is dropped *)
  if replacer_size_ r <? Z.of_nat (length nodes) then
    '(_, r2) ← Evict_locking true r1; Ok r2
  else Ok r1.

(** [LRUKReplacer::SetEvictable] *)
Definition SetEvictable (frame_id : Z) (set_evictable : bool) (r : LRUKReplacer)
  : outcome LRUKReplacer :=
  if decide (frame_id ∈ node_store_ r) then
    '(pre, n, post) ← deref frame_id (node_list_ r);
    let before := is_evictable_ n in
    let size1 := if negb before && set_evictable then size_inc (curr_size_ r) else curr_size_ r in
    let size2 := if before && negb set_evictable then size_dec size1 else size1 in
    Ok (mkReplacer (pre ++ node_SetEvictable set_evictable n :: post) (node_store_ r)
                   (current_timestamp_ r) size2 (replacer_size_ r) (k_ r))
  else Ok r.

(** [LRUKReplacer::Remove] *)
Definition Remove (frame_id : Z) (r : LRUKReplacer) : outcome LRUKReplacer :=
  if decide (frame_id ∈ node_store_ r) then
    '(pre, n, post) ← deref frame_id (node_list_ r);
    if is_evictable_ n then
      Ok (mkReplacer (pre ++ post) (node_store_ r ∖ {[frame_id]})
                     (current_timestamp_ r) (size_dec (curr_size_ r))
                     (replacer_size_ r) (k_ r))
    else Aborted
  else Ok r.

(** [LRUKReplacer::Size] *)
Definition Size (r : LRUKReplacer) : Z := curr_size_ r.

(** ** Block device and disk scheduler *)

Abbreviation bytes := (list Byte.byte).

(** Modelled from the spec: the block I/O collaborator of section 6.1
    ([DiskManager], storage/disk/disk_manager.h, is not part of the sources).
    [WritePage page_id buffer] stores the buffer and [ReadPage page_id buffer]
    fills it; each says whether the block operation succeeded. *)
Class DiskManager (D : Type) : Type := {
  WritePage : Z → bytes → D → D * bool;
  ReadPage : Z → bytes → D → bytes * bool
}.

Module DiskRequest.
(** The fields that [Schedule] copies (line 33).  [data_] is the buffer the
    request points at, [callback_] names its [std::promise<bool>]. *)
Record t : Type := mk {
  is_write_ : bool;
  data_ : bytes;
  page_id_ : Z;
  callback_ : nat
}.
End DiskRequest.
Abbreviation DiskRequest := DiskRequest.t.

(** What the worker leaves behind for one request: the value set on the
    promise and the contents of the request's buffer. *)
Record Completion : Type := mkCompletion {
  signal : nat;
  value : bool;
  buffer : bytes
}.

Section Scheduler.
Context {D : Type} {dm : DiskManager D}.

(** The body of the loop of [DiskScheduler::StartWorkerThread] for a
    request [r] (lines 40-45). *)
Definition serve (r : DiskRequest) (d : D) : D * Completion :=
  if DiskRequest.is_write_ r then
    let '(d', _) := WritePage (DiskRequest.page_id_ r) (DiskRequest.data_ r) d in
    (d', mkCompletion (DiskRequest.callback_ r) true (DiskRequest.data_ r))
  else
    let '(buf, _) := ReadPage (DiskRequest.page_id_ r) (DiskRequest.data_ r) d in
    (d, mkCompletion (DiskRequest.callback_ r) true buf).

(** [DiskScheduler::StartWorkerThread] on the contents of [request_queue_]:
    [None] is the [std::nullopt] that ends the loop; on an exhausted queue
    [Get] blocks and nothing more happens. *)
Fixpoint StartWorkerThread (queue : list (option DiskRequest)) (d : D)
  : D * list Completion :=
  match queue with
  | [] => (d, [])
  | None :: _ => (d, [])
  | Some r :: queue' =>
      let '(d1, c) := serve r d in
      let '(d2, cs) := StartWorkerThread queue' d1 in
      (d2, c :: cs)
  end.

(** [DiskScheduler::Schedule] *)
Definition Schedule (r : DiskRequest) (queue : list (option DiskRequest))
  : list (option DiskRequest) :=
  queue ++ [Some r].
End Scheduler.

(** ** Pages and the buffer pool manager *)

(** Modelled from the spec: constants of common/config.h, which is not part
    of the sources (section 6.4): the byte length of a page and the reserved
    page id. *)
Class Config : Type := {
  PAGE_SIZE : nat;
  INVALID_PAGE_ID : Z
}.

Module Page.
(** Modelled from the spec: [Page] (storage/page/page.h is not part of the
    sources), the frame of section 3. *)
Record t : Type := mk {
  data_ : bytes;
  page_id_ : Z;
  pin_count_ : Z;
  is_dirty_ : bool
}.
Definition set_data (d : bytes) (p : t) : t := mk d (page_id_ p) (pin_count_ p) (is_dirty_ p).
Definition set_page_id (i : Z) (p : t) : t := mk (data_ p) i (pin_count_ p) (is_dirty_ p).
Definition set_pin_count (c : Z) (p : t) : t := mk (data_ p) (page_id_ p) c (is_dirty_ p).
Definition set_is_dirty (b : bool) (p : t) : t := mk (data_ p) (page_id_ p) (pin_count_ p) b.
End Page.
Abbreviation Page := Page.t.

(** [page_id_t] and [frame_id_t] are 32-bit signed integers;
    [next_page_id_] is atomic, so its increment wraps, and so does the
    conversion of a [size_t] to [int]. *)
Definition wrap_int32 (x : Z) : Z := (x + 2 ^ 31) mod 2 ^ 32 - 2 ^ 31.

Record BufferPoolManager (D : Type) : Type := mkBPM {
  pool_size_ : Z;
  pages_ : list Page;
  page_table_ : gmap Z Z;
  free_list_ : list Z;
  replacer_ : LRUKReplacer;
  next_page_id_ : Z;
  (** the block device behind [disk_scheduler_] *)
  disk_ : D
}.
Arguments mkBPM {D}.
Arguments pool_size_ {D}.
Arguments pages_ {D}.
Arguments page_table_ {D}.
Arguments free_list_ {D}.
Arguments replacer_ {D}.
Arguments next_page_id_ {D}.
Arguments disk_ {D}.

(** [pages_[i]] as an rvalue and as the target of an update: outside the
    array the behaviour is undefined. *)
Definition page_at (i : Z) (pages : list Page) : outcome Page :=
  if 0 <=? i then
    match pages !! Z.to_nat i with
    | Some p => Ok p
    | None => Undefined
    end
  else Undefined.

Definition update_page (i : Z) (f : Page → Page) (pages : list Page) : outcome (list Page) :=
  p ← page_at i pages; Ok (<[Z.to_nat i := f p]> pages).

Section Pool.
Context {cfg : Config} {D : Type} {dm : DiskManager D}.

(** Modelled from the spec: [Page::ResetMemory] zeroes the buffer. *)
Definition ResetMemory (p : Page) : Page :=
  Page.set_data (replicate PAGE_SIZE Byte.x00) p.

(** Modelled from the spec: the default-constructed [Page] of the frame
    array, an empty frame. *)
Definition empty_Page : Page :=
  Page.mk (replicate PAGE_SIZE Byte.x00) INVALID_PAGE_ID 0 false.

(** [BufferPoolManager::BufferPoolManager]; the free list takes
    [static_cast<int>(i)] for every index [i] of the frame array (line 30);
    the page-id counter starts at 0 (section 4.1). *)
Definition new_BufferPoolManager (pool_size : nat) (disk : D) (replacer_k : Z)
  : BufferPoolManager D :=
  mkBPM (Z.of_nat pool_size)
        (replicate pool_size empty_Page)
        ∅
        ((λ i, wrap_int32 (Z.of_nat i)) <$> seq 0 pool_size)
        (new_LRUKReplacer (Z.of_nat pool_size) replacer_k)
        0
        disk.

(** [BufferPoolManager::ResetPage] *)
Definition ResetPage (page_id : Z) (page : Page) : Page :=
  Page.set_pin_count 0 (Page.set_is_dirty false (Page.set_page_id page_id (ResetMemory page))).

(** [BufferPoolManager::WritePageToDisk]: the request is scheduled and the
    call waits for its completion, so the worker serves it at once. *)
Definition WritePageToDisk (page : Page) (disk : D) : D * bool :=
  let r := DiskRequest.mk true (Page.data_ page) (Page.page_id_ page) 0%nat in
  let '(disk', c) := serve r disk in
  (disk', value c).

(** [BufferPoolManager::ReadPageFromDisk]: the buffer of the request is the
    page's [data_]. *)
Definition ReadPageFromDisk (page : Page) (disk : D) : Page * bool :=
  let r := DiskRequest.mk false (Page.data_ page) (Page.page_id_ page) 0%nat in
  let '(_, c) := serve r disk in
  (Page.set_data (buffer c) page, value c).

(** [BufferPoolManager::AllocatePage]: the id handed out and the counter
    after [next_page_id_++]. *)
Definition AllocatePage (s : BufferPoolManager D) : Z * Z :=
  (next_page_id_ s, wrap_int32 (next_page_id_ s + 1)).

(** [BufferPoolManager::NewPage].  [Some (page_id, frame_id)] stands for the
    pointer [&pages_[frame_id]] with [*page_id] written; [None] for
    [nullptr]. *)
Definition NewPage (s : BufferPoolManager D)
  : outcome (option (Z * Z) * BufferPoolManager D) :=
  match free_list_ s with
  | frame_id :: free_rest =>
      rep ← RecordAccess frame_id (replacer_ s);
      let '(page_id, next_id) := AllocatePage s in
      let table := <[page_id := frame_id]> (page_table_ s) in
      (* line 44: [pages_[*page_id].page_id_ = *page_id] *)
      pages1 ← update_page page_id (Page.set_page_id page_id) (pages_ s);
      pages2 ← update_page frame_id (ResetPage page_id) pages1;
      pages3 ← update_page frame_id (Page.set_pin_count 1) pages2;
      Ok (Some (page_id, frame_id),
          mkBPM (pool_size_ s) pages3 table free_rest rep next_id (disk_ s))
  | [] =>
      '(victim, rep) ← Evict (replacer_ s);
      match victim with
      | Some replaced_frame =>
          page ← page_at replaced_frame (pages_ s);
          let disk1 := if Page.is_dirty_ page then fst (WritePageToDisk page (disk_ s))
                       else disk_ s in
          let '(page_id, next_id) := AllocatePage s in
          let table1 := delete (Page.page_id_ page) (page_table_ s) in
          pages1 ← update_page replaced_frame (ResetPage page_id) (pages_ s);
          let table2 := <[page_id := replaced_frame]> table1 in
          pages2 ← update_page replaced_frame (Page.set_pin_count 1) pages1;
          rep1 ← RecordAccess replaced_frame rep;
          Ok (Some (page_id, replaced_frame),
              mkBPM (pool_size_ s) pages2 table2 [] rep1 next_id disk1)
      | None =>
          Ok (None, mkBPM (pool_size_ s) (pages_ s) (page_table_ s) [] rep
                          (next_page_id_ s) (disk_ s))
      end
  end.

(** [BufferPoolManager::FetchPage].  [Some frame_id] stands for the pointer
    [&pages_[frame_id]]. *)
Definition FetchPage (page_id : Z) (s : BufferPoolManager D)
  : outcome (option Z * BufferPoolManager D) :=
  match page_table_ s !! page_id with
  | Some frame_id =>
      rep ← RecordAccess frame_id (replacer_ s);
      Ok (Some frame_id,
          mkBPM (pool_size_ s) (pages_ s) (page_table_ s) (free_list_ s) rep
                (next_page_id_ s) (disk_ s))
  | None =>
      match free_list_ s with
      | frame_id :: free_rest =>
          rep ← RecordAccess frame_id (replacer_ s);
          pages1 ← update_page frame_id (ResetPage page_id) (pages_ s);
          pages2 ← update_page frame_id (Page.set_pin_count 1) pages1;
          let table := <[page_id := frame_id]> (page_table_ s) in
          pages3 ← update_page frame_id (λ p, fst (ReadPageFromDisk p (disk_ s))) pages2;
          Ok (Some frame_id,
              mkBPM (pool_size_ s) pages3 table free_rest rep (next_page_id_ s) (disk_ s))
      | [] =>
          '(victim, rep) ← Evict (replacer_ s);
          match victim with
          | Some replaced_frame =>
              page ← page_at replaced_frame (pages_ s);
              let disk1 := if Page.is_dirty_ page then fst (WritePageToDisk page (disk_ s))
                           else disk_ s in
              pages1 ← update_page replaced_frame (ResetPage page_id) (pages_ s);
              (* line 96: [page] is a reference to [pages_[replaced_frame]],
                 read here after [ResetPage] has stored [page_id] in it *)
              page' ← page_at replaced_frame pages1;
              let table1 := delete (Page.page_id_ page') (page_table_ s) in
              let table2 := <[page_id := replaced_frame]> table1 in
              pages2 ← update_page replaced_frame (Page.set_pin_count 1) pages1;
              rep1 ← RecordAccess replaced_frame rep;
              pages3 ← update_page replaced_frame (λ p, fst (ReadPageFromDisk p disk1)) pages2;
              Ok (Some replaced_frame,
                  mkBPM (pool_size_ s) pages3 table2 [] rep1 (next_page_id_ s) disk1)
          | None =>
              Ok (None, mkBPM (pool_size_ s) (pages_ s) (page_table_ s) [] rep
                              (next_page_id_ s) (disk_ s))
          end
      end
  end.

(** [BufferPoolManager::UnpinPage] *)
Definition UnpinPage (page_id : Z) (is_dirty : bool) (s : BufferPoolManager D)
  : outcome (bool * BufferPoolManager D) :=
  match page_table_ s !! page_id with
  | Some frame_id =>
      page ← page_at frame_id (pages_ s);
      if Page.pin_count_ page =? 0 then Ok (false, s)
      else
        let page1 := if is_dirty then Page.set_is_dirty true page else page in
        let page2 := Page.set_pin_count (Page.pin_count_ page1 - 1) page1 in
        rep ← (if Page.pin_count_ page2 =? 0
               then SetEvictable frame_id true (replacer_ s)
               else Ok (replacer_ s));
        Ok (true,
            mkBPM (pool_size_ s) (<[Z.to_nat frame_id := page2]> (pages_ s))
                  (page_table_ s) (free_list_ s) rep (next_page_id_ s) (disk_ s))
  | None => Ok (false, s)
  end.

(** [BufferPoolManager::FlushPage] *)
Definition FlushPage (page_id : Z) (s : BufferPoolManager D)
  : outcome (bool * BufferPoolManager D) :=
  match page_table_ s !! page_id with
  | Some frame_id =>
      page ← page_at frame_id (pages_ s);
      let disk1 := fst (WritePageToDisk page (disk_ s)) in
      Ok (true,
          mkBPM (pool_size_ s)
                (<[Z.to_nat frame_id := Page.set_is_dirty false page]> (pages_ s))
                (page_table_ s) (free_list_ s) (replacer_ s) (next_page_id_ s) disk1)
  | None => Ok (false, s)
  end.

(** [BufferPoolManager::DeletePage] *)
Definition DeletePage (page_id : Z) (s : BufferPoolManager D)
  : outcome (bool * BufferPoolManager D) :=
  match page_table_ s !! page_id with
  | Some frame_id =>
      page ← page_at frame_id (pages_ s);
      if negb (Page.pin_count_ page =? 0) then Ok (false, s)
      else
        let disk1 := if Page.is_dirty_ page then fst (WritePageToDisk page (disk_ s))
                     else disk_ s in
        let table := delete page_id (page_table_ s) in
        rep ← Remove frame_id (replacer_ s);
        let page1 := ResetPage INVALID_PAGE_ID page in
        Ok (true,
            mkBPM (pool_size_ s) (<[Z.to_nat frame_id := page1]> (pages_ s))
                  table (free_list_ s ++ [frame_id]) rep (next_page_id_ s) disk1)
  | None => Ok (false, s)
  end.

(** A caller writing [b] through the pointer to frame [frame_id] that
    [NewPage] or [FetchPage] returned. *)
Definition write_frame (frame_id : Z) (b : bytes) (s : BufferPoolManager D)
  : outcome (BufferPoolManager D) :=
  pages1 ← update_page frame_id (Page.set_data b) (pages_ s);
  Ok (mkBPM (pool_size_ s) pages1 (page_table_ s) (free_list_ s) (replacer_ s)
            (next_page_id_ s) (disk_ s)).

(** The bytes a caller reads through the pointer to frame [frame_id]. *)
Definition frame_bytes (frame_id : Z) (s : BufferPoolManager D) : outcome bytes :=
  p ← page_at frame_id (pages_ s); Ok (Page.data_ p).
End Pool.

(** Modelled from the spec: a block device that keeps what was written to it
    (section 6.1): a page that was never written reads as zeroes. *)
Definition MemoryDisk : Type := gmap Z bytes.

#[global] Instance MemoryDisk_manager {cfg : Config} : DiskManager MemoryDisk := {|
  WritePage page_id buf d := (<[page_id := buf]> d, true);
  ReadPage page_id buf d := (default (replicate PAGE_SIZE Byte.x00) (d !! page_id), true)
|}.

(** A block device whose operations all fail and leave disk and buffer as
    they were. *)
Definition BrokenDisk : Type := unit.

#[global] Instance BrokenDisk_manager : DiskManager BrokenDisk := {|
  WritePage _ _ d := (d, false);
  ReadPage _ buf _ := (buf, false)
|}.

(** The customary values of the two constants, for the concrete runs below. *)
Definition bustub_config : Config := {| PAGE_SIZE := 4096; INVALID_PAGE_ID := -1 |}.

(** * Vocabulary of the properties *)

(** ** Replacer *)

(** Every iterator kept in [node_store_] designates a node of [node_list_]. *)
Definition iterators_valid (r : LRUKReplacer) : Prop :=
  ∀ f, f ∈ node_store_ r → ∃ n, n ∈ node_list_ r ∧ fid_ n = f.

(** A node as [RecordAccess] builds them, in a replacer of depth [K] whose
    clock shows [ts]: between 1 and [K] timestamps, increasing, all of them
    before [ts]. *)
Definition node_ok (K ts : Z) (n : LRUKNode) : Prop :=
  LRUKNode.k_ n = K ∧
  history_ n ≠ [] ∧
  Z.of_nat (length (history_ n)) ≤ K ∧
  StronglySorted Z.lt (history_ n) ∧
  Forall (λ t, 0 ≤ t < ts) (history_ n).

(** The place of a node in the eviction order as one number: nodes with
    fewer than K accesses come first, by their first timestamp; the others
    follow, by the first timestamp they still hold. *)
Definition rank (n : LRUKNode) : Z :=
  (if fewer_than_k n then 0 else SIZE_MODULUS) + hd 0 (history_ n).

Definition rank_lt (a b : LRUKNode) : Prop := rank a < rank b.

(** What holds of [node_list_] between calls: well-formed nodes, no
    timestamp recorded twice, eviction order, one node per frame. *)
Definition nodes_inv (K ts : Z) (l : list LRUKNode) : Prop :=
  Forall (node_ok K ts) l ∧
  NoDup (l ≫= history_) ∧
  StronglySorted rank_lt l ∧
  NoDup (fid_ <$> l).

Definition replacer_inv (r : LRUKReplacer) : Prop :=
  1 ≤ k_ r ∧
  0 ≤ current_timestamp_ r < SIZE_MODULUS ∧
  nodes_inv (k_ r) (current_timestamp_ r) (node_list_ r) ∧
  (∀ f, f ∈ node_store_ r ↔ f ∈ fid_ <$> node_list_ r).

(** The states a replacer goes through: built by the constructor with
    [k >= 1] and changed by the public operations, as long as the 64-bit clock
    has not wrapped. *)
Inductive reachable : LRUKReplacer → Prop :=
  | reachable_new (num_frames k : Z) :
      1 ≤ k → reachable (new_LRUKReplacer num_frames k)
  | reachable_RecordAccess (r r' : LRUKReplacer) (f : Z) :
      reachable r → current_timestamp_ r + 1 < SIZE_MODULUS →
      RecordAccess f r = Ok r' → reachable r'
  | reachable_Evict (r r' : LRUKReplacer) (res : option Z) :
      reachable r → Evict r = Ok (res, r') → reachable r'
  | reachable_SetEvictable (r r' : LRUKReplacer) (f : Z) (b : bool) :
      reachable r → SetEvictable f b r = Ok r' → reachable r'
  | reachable_Remove (r r' : LRUKReplacer) (f : Z) :
      reachable r → Remove f r = Ok r' → reachable r'.

(** "Fewer than K recorded accesses": K-distance +infinity. *)
Definition infinite_distance (K : Z) (n : LRUKNode) : Prop :=
  Z.of_nat (length (history_ n)) < K.

(** The K-th timestamp from the last one of the history. *)
Definition kth_from_last (K : Z) (n : LRUKNode) : option Z :=
  history_ n !! (length (history_ n) - Z.to_nat K)%nat.

(** [v] goes before [n] under the backward K-distance order: [v] has
    K-distance +infinity and [n] has not; or both have and the earliest access
    of [v] is the older one; or neither has and the K-th-from-last timestamp
    of [v] is the smaller one (its K-distance the larger one). *)
Definition evicted_before (K : Z) (v n : LRUKNode) : Prop :=
  (infinite_distance K v ∧ ¬ infinite_distance K n) ∨
  (infinite_distance K v ∧ infinite_distance K n ∧
   ∃ a b, head (history_ v) = Some a ∧ head (history_ n) = Some b ∧ a < b) ∨
  (¬ infinite_distance K v ∧ ¬ infinite_distance K n ∧
   ∃ a b, kth_from_last K v = Some a ∧ kth_from_last K n = Some b ∧ a < b).

(** Scenario 6 of section 8, with [K = 2]: accesses to frames [A], [B], [A],
    [C], then all three made evictable. *)
Definition lru_k_accesses (A B C num_frames : Z) : outcome LRUKReplacer :=
  r ← RecordAccess A (new_LRUKReplacer num_frames 2);
  r ← RecordAccess B r;
  r ← RecordAccess A r;
  r ← RecordAccess C r;
  r ← SetEvictable A true r;
  r ← SetEvictable B true r;
  SetEvictable C true r.

(** The victims of three [Evict] calls after that. *)
Definition lru_k_scenario (A B C num_frames : Z)
  : outcome (option Z * option Z * option Z) :=
  r ← lru_k_accesses A B C num_frames;
  '(v1, r) ← Evict r;
  '(v2, r) ← Evict r;
  '(v3, _) ← Evict r;
  Ok (v1, v2, v3).

(** The replacer of the scenario for frames 1, 2, 3 out of 3, before the
    evictions. *)
Definition lru_k_state : LRUKReplacer :=
  mkReplacer [LRUKNode.mk [1] 2 2 true; LRUKNode.mk [3] 2 3 true;
              LRUKNode.mk [0; 2] 2 1 true]
             (list_to_set [1; 2; 3]) 4 3 3 2.

(** That replacer after one [Evict]: there is room for one more frame. *)
Definition lru_k_state_after_Evict : LRUKReplacer :=
  match Evict lru_k_state with
  | Ok (_, r) => r
  | _ => lru_k_state
  end.

(** ** Disk scheduler *)

(** The requests the worker gets to: those in front of the first
    [std::nullopt]. *)
Fixpoint served (queue : list (option DiskRequest)) : list DiskRequest :=
  match queue with
  | Some r :: queue' => r :: served queue'
  | _ => []
  end.

(** ** Buffer pool *)

(** Indices inside the frame array. *)
Definition in_bounds (i : Z) (pages : list Page) : Prop :=
  0 ≤ i < Z.of_nat (length pages).


(** ** Concrete runs of the pool *)

Section Scenarios.
#[local] Existing Instance bustub_config.

(** A pool of [n] frames over an empty disk, with [K = 2]. *)
Definition fresh_pool (n : nat) : BufferPoolManager MemoryDisk :=
  new_BufferPoolManager n ∅ 2.

Definition pin_count_of (frame_id : Z) (s : BufferPoolManager MemoryDisk) : outcome Z :=
  p ← page_at frame_id (pages_ s); Ok (Page.pin_count_ p).

Definition page_id_of (frame_id : Z) (s : BufferPoolManager MemoryDisk) : outcome Z :=
  p ← page_at frame_id (pages_ s); Ok (Page.page_id_ p).

(** A pool of two frames with page 0 pinned once in frame 0. *)
Definition one_page_pool : BufferPoolManager MemoryDisk :=
  match NewPage (fresh_pool 2) with
  | Ok (_, s) => s
  | _ => fresh_pool 2
  end.

(** The pin count of page 0's frame right after [NewPage], the result of a
    [FetchPage(0)] that hits and the pin count after it, then the results of
    two [UnpinPage(0)] calls. *)
Definition fetch_hit_run : outcome (Z * option Z * Z * bool * bool) :=
  '(_, s) ← NewPage (fresh_pool 1);
  pins_before ← pin_count_of 0 s;
  '(fetched, s) ← FetchPage 0 s;
  pins_after ← pin_count_of 0 s;
  '(unpin1, s) ← UnpinPage 0 false s;
  '(unpin2, s) ← UnpinPage 0 false s;
  Ok (pins_before, fetched, pins_after, unpin1, unpin2).

(** In a pool of one frame, page 0 is created and unpinned, page 1 is
    created in its place and unpinned, and page 0 is fetched again, which
    evicts page 1.  Reported: the frame fetched, the page-table entries of
    pages 0 and 1, and the page id that frame 0 holds. *)
Definition fetch_evict_run : outcome (option Z * option Z * option Z * Z) :=
  '(_, s) ← NewPage (fresh_pool 1);
  '(_, s) ← UnpinPage 0 false s;
  '(_, s) ← NewPage s;
  '(_, s) ← UnpinPage 1 false s;
  '(fetched, s) ← FetchPage 0 s;
  held ← page_id_of 0 s;
  Ok (fetched, page_table_ s !! 0, page_table_ s !! 1, held).

(** The first three steps of that run: [NewPage] evicts page 0 for page 1.
    Reported: the page-table entries of pages 0 and 1. *)
Definition new_evict_run : outcome (option Z * option Z) :=
  '(_, s) ← NewPage (fresh_pool 1);
  '(_, s) ← UnpinPage 0 false s;
  '(_, s) ← NewPage s;
  Ok (page_table_ s !! 0, page_table_ s !! 1).

(** In a pool of one frame, page 0 is created, unpinned and deleted, which
    puts frame 0 back on the free list. *)
Definition new_after_delete_prefix : outcome (BufferPoolManager MemoryDisk) :=
  '(_, s) ← NewPage (fresh_pool 1);
  '(_, s) ← UnpinPage 0 false s;
  '(_, s) ← DeletePage 0 s;
  Ok s.

Definition AB_page : bytes := replicate PAGE_SIZE Byte.xab.

(** In a pool of one frame, page 0 is created and unpinned, page 1 is
    created, filled with [0xAB] bytes and unpinned dirty; fetching page 0
    evicts page 1; after unpinning page 0, page 1 is fetched.  Reported: the
    frame fetched, its bytes, and what the disk holds for page 1. *)
Definition round_trip_run : outcome (option Z * bytes * option bytes) :=
  '(_, s) ← NewPage (fresh_pool 1);
  '(_, s) ← UnpinPage 0 false s;
  '(_, s) ← NewPage s;
  s ← write_frame 0 AB_page s;
  '(_, s) ← UnpinPage 1 true s;
  '(_, s) ← FetchPage 0 s;
  '(_, s) ← UnpinPage 0 false s;
  '(fetched, s) ← FetchPage 1 s;
  read_back ← frame_bytes 0 s;
  Ok (fetched, read_back, disk_ s !! 1).

(** The same, with page 1 evicted by [NewPage] (page 2) and page 2 evicted
    by the fetch of page 1. *)
Definition round_trip_NewPage_run : outcome (option Z * bytes) :=
  '(_, s) ← NewPage (fresh_pool 1);
  '(_, s) ← UnpinPage 0 false s;
  '(_, s) ← NewPage s;
  s ← write_frame 0 AB_page s;
  '(_, s) ← UnpinPage 1 true s;
  '(_, s) ← NewPage s;
  '(_, s) ← UnpinPage 2 false s;
  '(fetched, s) ← FetchPage 1 s;
  read_back ← frame_bytes 0 s;
  Ok (fetched, read_back).
End Scenarios.

Ltac replacer_fields :=
  cbn [node_list_ node_store_ current_timestamp_ curr_size_ replacer_size_ k_] in *.

(** * Further vocabulary *)

(** The number of tracked frames that are evictable. *)
Definition evictable_count (l : list LRUKNode) : Z :=
  Z.of_nat (length (filter (λ n, is_evictable_ n = true) l)).

(** [curr_size_] is the number of evictable nodes. *)
Definition size_ok (r : LRUKReplacer) : Prop :=
  curr_size_ r = evictable_count (node_list_ r).

(** Whether the shutdown sentinel [std::nullopt] is in the queue. *)
Definition has_sentinel (q : list (option DiskRequest)) : bool :=
  existsb (λ o, match o with None => true | Some _ => false end) q.

Section PoolVocabulary.
Context {cfg : Config}.

(** The frame that [NewPage] hands out: zeroed, pinned once, clean. *)
Definition new_frame (page_id : Z) : Page :=
  Page.mk (replicate PAGE_SIZE Byte.x00) page_id 1 false.

(** The frame that a [FetchPage] miss hands out, holding [data]. *)
Definition fetched_frame (page_id : Z) (data : bytes) : Page :=
  Page.mk data page_id 1 false.
End PoolVocabulary.

Section PoolDiskVocabulary.
Context {D : Type} {dm : DiskManager D}.

(** The disk after the write-back of a frame, if it is dirty. *)
Definition written_back (victim : Page) (disk : D) : D :=
  if Page.is_dirty_ victim
  then (WritePage (Page.page_id_ victim) (Page.data_ victim) disk).1
  else disk.
End PoolDiskVocabulary.

(** The iterators of the replacer are valid, every tracked frame id
    satisfies [B], and the replacer is made for as many frames as there are
    frame ids that satisfy [B]. *)
Definition tracking_ok (B : Z → Prop) (r : LRUKReplacer) : Prop :=
  NoDup (fid_ <$> node_list_ r) ∧
  (∀ f, f ∈ node_store_ r ↔ f ∈ fid_ <$> node_list_ r) ∧
  Forall (λ n, B (fid_ n)) (node_list_ r) ∧
  (∀ l : list Z, NoDup l → Forall B l → Z.of_nat (length l) ≤ replacer_size_ r).

(** The frame array has [pool_size_] frames, and every frame id that the
    pool keeps (free list, page table, replacer) is an index of it. *)
Definition pool_ok {D : Type} (s : BufferPoolManager D) : Prop :=
  Z.of_nat (length (pages_ s)) = pool_size_ s ∧
  Forall (λ f, in_bounds f (pages_ s)) (free_list_ s) ∧
  map_Forall (λ _ f, in_bounds f (pages_ s)) (page_table_ s) ∧
  tracking_ok (λ f, in_bounds f (pages_ s)) (replacer_ s).


Section PoolReachable.
Context {cfg : Config} {D : Type} {dm : DiskManager D}.

(** The states of a pool: built by the constructor with fewer than 2^31
    frames (every index of a frame is a [frame_id_t]), then changed by the
    public operations that return and by callers writing into frames. *)
Inductive pool_reachable : BufferPoolManager D → Prop :=
  | pool_new (pool_size : nat) (disk : D) (replacer_k : Z) :
      Z.of_nat pool_size < 2 ^ 31 →
      pool_reachable (new_BufferPoolManager pool_size disk replacer_k)
  | pool_NewPage s res s' :
      pool_reachable s → NewPage s = Ok (res, s') → pool_reachable s'
  | pool_FetchPage s page_id res s' :
      pool_reachable s → FetchPage page_id s = Ok (res, s') → pool_reachable s'
  | pool_UnpinPage s page_id is_dirty res s' :
      pool_reachable s → UnpinPage page_id is_dirty s = Ok (res, s') → pool_reachable s'
  | pool_FlushPage s page_id res s' :
      pool_reachable s → FlushPage page_id s = Ok (res, s') → pool_reachable s'
  | pool_DeletePage s page_id res s' :
      pool_reachable s → DeletePage page_id s = Ok (res, s') → pool_reachable s'
  | pool_write_frame s frame_id b s' :
      pool_reachable s → write_frame frame_id b s = Ok s' → pool_reachable s'.
End PoolReachable.

Section PoolSequences.
Context {cfg : Config} {D : Type} {dm : DiskManager D}.

(** [n] calls of [NewPage] in a row, with their results. *)
Fixpoint NewPage_times (n : nat) (s : BufferPoolManager D)
  : outcome (list (option (Z * Z)) * BufferPoolManager D) :=
  match n with
  | O => Ok ([], s)
  | S n' =>
      '(res, s1) ← NewPage s;
      '(results, s2) ← NewPage_times n' s1;
      Ok (res :: results, s2)
  end.

(** [BufferPoolManager::FlushPage], called with [latch_] free or held. *)
Definition FlushPage_locking (latch_held : bool) (page_id : Z) (s : BufferPoolManager D)
  : outcome (bool * BufferPoolManager D) :=
  lock_latch latch_held (FlushPage page_id s).

(** [BufferPoolManager::FlushAllPages]: it takes [latch_] and, holding it,
    calls [FlushPage] for every key of the page table; the order of the
    iteration over the [unordered_map] is that of [map_to_list] here. *)
Definition FlushAllPages (s : BufferPoolManager D) : outcome (BufferPoolManager D) :=
  lock_latch false
    (foldl (λ acc kv, s1 ← acc; '(_, s2) ← FlushPage_locking true kv.1 s1; Ok s2)
           (Ok s) (map_to_list (page_table_ s))).

(** A pool of [n] frames in which the first [i] calls of [NewPage] have put
    pages [0 .. i-1] into frames [0 .. i-1], all pinned. *)
Definition filled (n i : nat) (s : BufferPoolManager D) : Prop :=
  pool_ok s ∧
  length (pages_ s) = n ∧
  free_list_ s = Z.of_nat <$> seq i (n - i) ∧
  next_page_id_ s = Z.of_nat i ∧
  (∀ j, (j < i)%nat →
        pages_ s !! j = Some (new_frame (Z.of_nat j)) ∧
        page_table_ s !! Z.of_nat j = Some (Z.of_nat j)) ∧
  (∀ p, page_table_ s !! p ≠ None → 0 ≤ p < Z.of_nat i) ∧
  (∀ f, f ∈ node_store_ (replacer_ s) → 0 ≤ f < Z.of_nat i) ∧
  Forall (λ n, is_evictable_ n = false) (node_list_ (replacer_ s)).
End PoolSequences.

Section MoreScenarios.
#[local] Existing Instance bustub_config.

(** The pool that a run leaves. *)
Definition pool_after (run : outcome (BufferPoolManager MemoryDisk))
  : BufferPoolManager MemoryDisk :=
  match run with
  | Ok s => s
  | _ => fresh_pool 0
  end.

(** One frame, holding page 0, pinned. *)
Definition pinned_pool : BufferPoolManager MemoryDisk :=
  pool_after ('(_, s) ← NewPage (fresh_pool 1); Ok s).

(** One frame, holding page 0, unpinned and clean. *)
Definition unpinned_pool : BufferPoolManager MemoryDisk :=
  pool_after ('(_, s) ← NewPage (fresh_pool 1);
              '(_, s) ← UnpinPage 0 false s;
              Ok s).

(** One frame, holding page 0 filled with [0xAB], dirty and unpinned. *)
Definition dirty_pool : BufferPoolManager MemoryDisk :=
  pool_after ('(_, s) ← NewPage (fresh_pool 1);
              s ← write_frame 0 AB_page s;
              '(_, s) ← UnpinPage 0 true s;
              Ok s).

(** Two frames: page 0 filled with [0xAB] and dirty in frame 0, page 1 clean
    in frame 1, both unpinned. *)
Definition two_page_pool : BufferPoolManager MemoryDisk :=
  pool_after ('(_, s) ← NewPage (fresh_pool 2);
              s ← write_frame 0 AB_page s;
              '(_, s) ← UnpinPage 0 true s;
              '(_, s) ← NewPage s;
              '(_, s) ← UnpinPage 1 false s;
              Ok s).

(** One frame, free again after page 0 was deleted; page id 1 is next. *)
Definition deleted_pool : BufferPoolManager MemoryDisk :=
  pool_after new_after_delete_prefix.

(** In a pool of two frames page 7 is fetched into frame 0; [NewPage] makes
    page 0 in frame 1 and, by line 44, stores page id 0 in frame 0; frame 0
    is filled with [0xAB] and page 7 unpinned dirty, deleted and fetched
    again.  Reported: the result of [DeletePage], the frame fetched, its
    bytes, and what the disk holds for pages 7 and 0. *)
Definition stale_page_id_run
  : outcome (bool * option Z * bytes * option bytes * option bytes) :=
  '(_, s) ← FetchPage 7 (fresh_pool 2);
  '(_, s) ← NewPage s;
  s ← write_frame 0 AB_page s;
  '(_, s) ← UnpinPage 7 true s;
  '(deleted, s) ← DeletePage 7 s;
  '(fetched, s) ← FetchPage 7 s;
  read_back ← frame_bytes 0 s;
  Ok (deleted, fetched, read_back, disk_ s !! 7, disk_ s !! 0).

(** In a pool of one frame page 0 is fetched, filled with [0xAB] and
    unpinned dirty; [NewPage] evicts it and hands out page id 0 once more;
    page 0 is fetched.  Reported: the result of [NewPage], the frame fetched,
    its bytes, and what the disk holds for page 0. *)
Definition reused_page_id_run
  : outcome (option (Z * Z) * option Z * bytes * option bytes) :=
  '(_, s) ← FetchPage 0 (fresh_pool 1);
  s ← write_frame 0 AB_page s;
  '(_, s) ← UnpinPage 0 true s;
  '(created, s) ← NewPage s;
  '(fetched, s) ← FetchPage 0 s;
  read_back ← frame_bytes 0 s;
  Ok (created, fetched, read_back, disk_ s !! 0).
End MoreScenarios.

(** * Properties *)

(** ** Facts about the helpers *)

Lemma split_first_Some {A} (P : A → bool) (l pre post : list A) (x : A) :
  split_first P l = Some (pre, x, post) →
  l = pre ++ x :: post ∧ P x = true ∧ Forall (λ y, P y = false) pre.
Proof.
  revert pre. induction l as [|y l IH]; intros pre; simpl; [done|].
  destruct (P y) eqn:Hy.
  - intros [= <- <- <-]. auto.
  - destruct (split_first P l) as [[[pre' z] post']|]; [|done].
    intros [= <- <- <-]. destruct (IH pre' eq_refl) as (-> & ? & ?).
    split_and!; auto.
Qed.

Lemma split_first_None {A} (P : A → bool) (l : list A) :
  split_first P l = None ↔ Forall (λ y, P y = false) l.
Proof.
  induction l as [|y l IH]; simpl; [by split|].
  destruct (P y) eqn:Hy.
  - split; [done|]. intros H%Forall_cons_1. destruct H; congruence.
  - destruct (split_first P l) as [[[pre' z] post']|].
    + split; [done|]. intros [_ H]%Forall_cons_1. by apply IH in H.
    + split; [|done]. intros _. constructor; [done|]. by apply IH.
Qed.

Lemma split_first_is_Some {A} (P : A → bool) (l : list A) (x : A) :
  x ∈ l → P x = true → is_Some (split_first P l).
Proof.
  intros Hx HP. destruct (split_first P l) eqn:E; [done|].
  apply split_first_None in E. rewrite Forall_forall in E.
  specialize (E x Hx). congruence.
Qed.

Lemma page_at_Ok (i : Z) (pages : list Page) (p : Page) :
  page_at i pages = Ok p ↔ 0 ≤ i ∧ pages !! Z.to_nat i = Some p.
Proof.
  unfold page_at. destruct (Z.leb_spec 0 i).
  - destruct (pages !! Z.to_nat i) as [q|]; split.
    + by intros [= ->].
    + by intros [_ [= ->]].
    + done.
    + by intros [_ ?].
  - split; [done|]. lia.
Qed.

Lemma page_at_in_bounds (i : Z) (pages : list Page) :
  in_bounds i pages → ∃ p, page_at i pages = Ok p ∧ pages !! Z.to_nat i = Some p.
Proof.
  intros [H0 H1]. destruct (pages !! Z.to_nat i) as [p|] eqn:E.
  - exists p. split; [|done]. by apply page_at_Ok.
  - apply lookup_ge_None in E. lia.
Qed.

Lemma page_at_Undefined (i : Z) (pages : list Page) :
  ¬ in_bounds i pages → page_at i pages = Undefined.
Proof.
  unfold in_bounds, page_at. intros H. destruct (Z.leb_spec 0 i); [|done].
  destruct (pages !! Z.to_nat i) eqn:E; [|done].
  apply lookup_lt_Some in E. lia.
Qed.

Lemma deref_valid (r : LRUKReplacer) (f : Z) :
  iterators_valid r → f ∈ node_store_ r →
  ∃ pre n post, deref f (node_list_ r) = Ok (pre, n, post) ∧
                node_list_ r = pre ++ n :: post ∧ fid_ n = f ∧
                Forall (λ m, fid_ m ≠ f) pre.
Proof.
  intros Hv Hf. destruct (Hv f Hf) as (n & Hn & Hfid).
  destruct (split_first_is_Some (λ m, fid_ m =? f) _ n Hn) as [[[pre m] post] E].
  { by apply Z.eqb_eq. }
  exists pre, m, post. unfold deref. rewrite E.
  apply split_first_Some in E as (? & ?%Z.eqb_eq & Hpre).
  split_and!; try done.
  eapply Forall_impl; [exact Hpre|]. intros ? ?%Z.eqb_neq. done.
Qed.


Lemma Evict_none (r : LRUKReplacer) :
  Forall (λ n, is_evictable_ n = false) (node_list_ r) → Evict r = Ok (None, r).
Proof.
  intros H%split_first_None. unfold Evict. by rewrite H.
Qed.

(** ** Replacer: the order of [node_list_] *)

Lemma node_ok_head (K ts : Z) (n : LRUKNode) :
  node_ok K ts n → ∃ t rest, history_ n = t :: rest ∧ 0 ≤ t < ts.
Proof.
  intros (_ & Hne & _ & _ & Hb). destruct (history_ n) as [|t rest]; [done|].
  exists t, rest. split; [done|]. by apply Forall_cons_1 in Hb as [? _].
Qed.

Lemma node_ok_kth_recent (K ts : Z) (n : LRUKNode) :
  node_ok K ts n → fewer_than_k n = false → kth_recent n = oldest n.
Proof.
  intros (Hk & Hne & Hlen & _ & _) Hf. unfold fewer_than_k in Hf.
  apply Z.ltb_ge in Hf. unfold kth_recent, oldest.
  replace (length (history_ n) - Z.to_nat (LRUKNode.k_ n))%nat with 0%nat by lia.
  by destruct (history_ n).
Qed.

Lemma node_lt_rank (K ts : Z) (a b : LRUKNode) :
  ts ≤ SIZE_MODULUS → node_ok K ts a → node_ok K ts b →
  node_lt a b = true ↔ rank a < rank b.
Proof.
  intros Hts Ha Hb.
  pose proof (node_ok_kth_recent _ _ _ Ha) as Hka.
  pose proof (node_ok_kth_recent _ _ _ Hb) as Hkb.
  destruct (node_ok_head _ _ _ Ha) as (ta & ra & Ea & Hta).
  destruct (node_ok_head _ _ _ Hb) as (tb & rb & Eb & Htb).
  unfold node_lt, rank.
  destruct (fewer_than_k a), (fewer_than_k b);
    rewrite ?Hka, ?Hkb by done; unfold oldest; rewrite Ea, Eb; simpl;
    rewrite ?Z.ltb_lt; split; try done; lia.
Qed.

Lemma node_ok_mono (K ts ts' : Z) (n : LRUKNode) :
  ts ≤ ts' → node_ok K ts n → node_ok K ts' n.
Proof.
  intros Hle (? & ? & ? & ? & Hb). split_and!; try done.
  eapply Forall_impl; [exact Hb|]. simpl. lia.
Qed.

Lemma Insert_Permutation (l : list LRUKNode) (new : LRUKNode) :
  Insert l new ≡ₚ new :: l.
Proof.
  induction l as [|x l IH]; simpl; [done|].
  destruct (node_lt x new); [|done].
  rewrite IH. apply Permutation_swap.
Qed.

Lemma Insert_sorted (K ts : Z) (l : list LRUKNode) (new : LRUKNode) :
  ts ≤ SIZE_MODULUS →
  Forall (node_ok K ts) l → node_ok K ts new →
  Forall (λ x, rank x ≠ rank new) l →
  StronglySorted rank_lt l →
  StronglySorted rank_lt (Insert l new).
Proof.
  intros Hts Hok Hnew Hne Hs.
  induction l as [|x l IH]; simpl.
  { repeat constructor. }
  apply Forall_cons_1 in Hok as [Hx Hok].
  apply Forall_cons_1 in Hne as [Hxne Hne].
  apply StronglySorted_cons in Hs as [Hxl Hs].
  destruct (node_lt x new) eqn:Hlt.
  - apply StronglySorted_cons. split; [|by apply IH].
    rewrite Insert_Permutation. constructor; [|done].
    by apply (node_lt_rank K ts).
  - assert (rank new < rank x) as Hnx.
    { destruct (Z.lt_trichotomy (rank x) (rank new)) as [H|[H|H]]; [|done|done].
      apply (node_lt_rank K ts) in H; [congruence|done..]. }
    apply StronglySorted_cons. split.
    + constructor; [done|].
      eapply Forall_impl; [exact Hxl|]. unfold rank_lt. simpl. lia.
    + by apply StronglySorted_cons.
Qed.

Lemma StronglySorted_lt_NoDup (l : list Z) : StronglySorted Z.lt l → NoDup l.
Proof.
  induction 1 as [|x l _ IH Hx]; constructor; [|done].
  intros Hin. rewrite Forall_forall in Hx. specialize (Hx x Hin). lia.
Qed.

Lemma nodes_inv_mono (K ts ts' : Z) (l : list LRUKNode) :
  ts ≤ ts' → nodes_inv K ts l → nodes_inv K ts' l.
Proof.
  intros Hle (Hok & ? & ? & ?). split_and!; try done.
  eapply Forall_impl; [exact Hok|]. intros n. by apply node_ok_mono.
Qed.

Lemma nodes_inv_remove (K ts : Z) (pre post : list LRUKNode) (x : LRUKNode) :
  nodes_inv K ts (pre ++ x :: post) → nodes_inv K ts (pre ++ post).
Proof.
  intros (Hok & Hnd & Hs & Hf).
  assert (pre ++ post `sublist_of` pre ++ x :: post) as Hsub.
  { apply sublist_app; [done|]. by apply sublist_cons. }
  split_and!.
  - apply Forall_app in Hok as [Hpre Hpost].
    apply Forall_cons_1 in Hpost as [_ Hpost]. by apply Forall_app.
  - eapply sublist_NoDup; [exact Hnd|]. by apply bind_sublist.
  - apply StronglySorted_app in Hs as (H1 & H2 & H3).
    apply StronglySorted_cons in H3 as [_ H3].
    apply StronglySorted_app. split_and!; try done.
    intros a b Ha Hb. apply H1; [done|]. by apply list_elem_of_further.
  - eapply sublist_NoDup; [exact Hf|]. by apply fmap_sublist.
Qed.

Lemma rank_eq_history (K ts : Z) (a b : LRUKNode) :
  ts ≤ SIZE_MODULUS → node_ok K ts a → node_ok K ts b → rank a = rank b →
  ∃ t, t ∈ history_ a ∧ t ∈ history_ b.
Proof.
  intros Hts Ha Hb.
  destruct (node_ok_head _ _ _ Ha) as (ta & ra & Ea & Hta).
  destruct (node_ok_head _ _ _ Hb) as (tb & rb & Eb & Htb).
  unfold rank. rewrite Ea, Eb. simpl. intros E.
  exists ta. split; [apply list_elem_of_here|].
  replace ta with tb; [apply list_elem_of_here|].
  destruct (fewer_than_k a), (fewer_than_k b); lia.
Qed.

(** Putting a node into [node_list_] with [Insert], starting after [pre]. *)
Lemma nodes_inv_Insert (K ts : Z) (pre post : list LRUKNode) (new : LRUKNode) :
  ts ≤ SIZE_MODULUS →
  nodes_inv K ts (pre ++ post) →
  node_ok K ts new →
  fid_ new ∉ fid_ <$> (pre ++ post) →
  (∀ t, t ∈ history_ new → t ∉ (pre ++ post) ≫= history_) →
  Forall (λ x, rank x < rank new) pre →
  nodes_inv K ts (pre ++ Insert post new).
Proof.
  intros Hts (Hok & Hnd & Hs & Hf) Hnew Hfid Hdisj Hpre.
  assert (pre ++ Insert post new ≡ₚ new :: (pre ++ post)) as Hperm.
  { rewrite Insert_Permutation. by rewrite Permutation_middle. }
  split_and!.
  - rewrite Hperm. by constructor.
  - rewrite Hperm, bind_cons. apply NoDup_app. split_and!; try done.
    apply StronglySorted_lt_NoDup. apply Hnew.
  - apply StronglySorted_app in Hs as (H1 & H2 & H3).
    apply Forall_app in Hok as [Hokpre Hokpost].
    apply StronglySorted_app. split_and!; try done.
    + intros a b Ha Hb. rewrite Insert_Permutation in Hb.
      apply elem_of_cons in Hb as [->|Hb]; [|by apply H1].
      rewrite Forall_forall in Hpre. by apply Hpre.
    + apply (Insert_sorted K ts); try done.
      apply Forall_forall. intros x Hx Hr.
      rewrite Forall_forall in Hokpost.
      destruct (rank_eq_history K ts x new Hts (Hokpost x Hx) Hnew Hr) as (t & Htx & Htn).
      apply (Hdisj t Htn). apply list_elem_of_bind. exists x. split; [done|].
      apply elem_of_app. by right.
  - rewrite Hperm, fmap_cons. by constructor.
Qed.

Lemma PushHistory_fields (ts : Z) (n : LRUKNode) :
  LRUKNode.k_ (PushHistory ts n) = LRUKNode.k_ n ∧
  fid_ (PushHistory ts n) = fid_ n ∧
  is_evictable_ (PushHistory ts n) = is_evictable_ n.
Proof. done. Qed.

Lemma PushHistory_elem_of (ts t : Z) (n : LRUKNode) :
  t ∈ history_ (PushHistory ts n) → t ∈ history_ n ∨ t = ts.
Proof.
  unfold PushHistory. cbn [history_]. rewrite elem_of_app, list_elem_of_singleton.
  intros [Ht|Ht]; [left|by right].
  destruct (_ =? _); [|done].
  destruct (history_ n); [done|]. by apply list_elem_of_further.
Qed.

Lemma PushHistory_new_ok (K ts f : Z) :
  1 ≤ K → 0 ≤ ts → node_ok K (ts + 1) (PushHistory ts (new_LRUKNode f K)).
Proof.
  intros HK Hts. unfold PushHistory, new_LRUKNode, node_ok. cbn.
  assert ((if Z.of_nat 0 =? K then [] else []) ++ [ts] = [ts]) as ->
    by (by destruct (_ =? _)).
  split_and!; try done.
  - repeat constructor.
  - repeat constructor; lia.
Qed.

Lemma PushHistory_ok (K ts : Z) (n : LRUKNode) :
  1 ≤ K → 0 ≤ ts → node_ok K ts n → node_ok K (ts + 1) (PushHistory ts n).
Proof.
  intros HK Hts (Hk & Hne & Hlen & Hs & Hb).
  assert (∀ h', h' `sublist_of` history_ n →
                Z.of_nat (length h') + 1 ≤ K →
                node_ok K (ts + 1) (LRUKNode.mk (h' ++ [ts]) (LRUKNode.k_ n) (fid_ n)
                                                (is_evictable_ n))) as Hgen.
  { intros h' Hsub Hl. unfold node_ok. cbn.
    assert (Forall (λ t, 0 ≤ t < ts) h') as Hb'.
    { apply Forall_forall. intros t Ht. rewrite Forall_forall in Hb.
      apply Hb. by eapply elem_of_sublist. }
    split_and!.
    - done.
    - by destruct h'.
    - rewrite length_app. simpl. lia.
    - apply StronglySorted_app. split_and!.
      + intros a b Ha ->%list_elem_of_singleton.
        rewrite Forall_forall in Hb'. specialize (Hb' a Ha). lia.
      + clear -Hs Hsub. induction Hsub as [|x l1 l2 Hsub IH|x l1 l2 Hsub IH].
        * constructor.
        * apply StronglySorted_cons in Hs as [Hx Hs].
          apply StronglySorted_cons. split; [|by apply IH].
          apply Forall_forall. intros y Hy. rewrite Forall_forall in Hx.
          apply Hx. by eapply elem_of_sublist.
        * apply StronglySorted_cons in Hs as [_ Hs]. by apply IH.
      + repeat constructor.
    - apply Forall_app. split.
      + eapply Forall_impl; [exact Hb'|]. simpl. lia.
      + repeat constructor; lia. }
  unfold PushHistory.
  destruct (Z.eqb_spec (Z.of_nat (length (history_ n))) (LRUKNode.k_ n)) as [E|E].
  - apply Hgen.
    + destruct (history_ n); [done|]. by apply sublist_cons.
    + destruct (history_ n); [done|]. simpl in *. lia.
  - apply Hgen; [done|lia].
Qed.

Lemma rank_PushHistory (K ts : Z) (n : LRUKNode) :
  1 ≤ K → ts + 1 ≤ SIZE_MODULUS → node_ok K ts n →
  rank n ≤ rank (PushHistory ts n) ∧
  (fewer_than_k (PushHistory ts n) = true → rank (PushHistory ts n) = rank n).
Proof.
  intros HK Hts Hn.
  destruct (node_ok_head _ _ _ Hn) as (t & rest & E & Ht).
  destruct Hn as (Hk & Hne & Hlen & Hs & Hb).
  unfold rank, fewer_than_k, PushHistory. cbn [history_ LRUKNode.k_].
  rewrite E in *. rewrite Hk.
  apply StronglySorted_cons in Hs as [Hrest _].
  apply Forall_cons_1 in Hb as [_ Hb].
  destruct (Z.eqb_spec (Z.of_nat (length (t :: rest))) K) as [El|El].
  - cbn [tail]. rewrite length_app. cbn [length] in *.
    destruct (Z.ltb_spec (Z.of_nat (S (length rest))) K); [lia|].
    destruct (Z.ltb_spec (Z.of_nat (length rest + 1)) K); [lia|].
    split; [|done]. cbn [hd]. destruct rest as [|t2 rest]; cbn [app hd].
    + lia.
    + apply Forall_cons_1 in Hrest as [? _]. lia.
  - rewrite length_app. cbn [length app hd] in *.
    destruct (Z.ltb_spec (Z.of_nat (S (length rest))) K); [|lia].
    destruct (Z.ltb_spec (Z.of_nat (S (length rest) + 1)) K).
    + done.
    + unfold SIZE_MODULUS. split; [lia|done].
Qed.

Lemma node_lt_moved_from (K ts : Z) (old new : LRUKNode) :
  1 ≤ K → LRUKNode.k_ old = K →
  node_lt (moved_from old) new = negb (fewer_than_k new).
Proof.
  intros HK Hk. unfold node_lt.
  assert (fewer_than_k (moved_from old) = true) as ->.
  { unfold fewer_than_k, moved_from. cbn. apply Z.ltb_lt. lia. }
  by destruct (fewer_than_k new).
Qed.

(** Under the invariant, the list that [RecordAccess] leaves for a tracked
    frame is [Insert] applied after the old position, without the old node. *)
Lemma reinsert_eq (K ts : Z) (pre post : list LRUKNode) (old : LRUKNode) :
  1 ≤ K → ts + 1 ≤ SIZE_MODULUS →
  nodes_inv K ts (pre ++ old :: post) →
  let new := PushHistory ts old in
  delete (if node_lt (moved_from old) new then 0%nat else 1%nat)
         (Insert (moved_from old :: post) new)
  = Insert post new.
Proof.
  intros HK Hts (Hok & _ & Hs & _) new.
  apply Forall_app in Hok as [_ Hok]. apply Forall_cons_1 in Hok as [Hold Hpost].
  apply StronglySorted_app in Hs as (_ & _ & Hs).
  apply StronglySorted_cons in Hs as [Hlt _].
  assert (Hk : LRUKNode.k_ old = K) by apply Hold.
  cbn [Insert]. rewrite (node_lt_moved_from K ts) by done.
  destruct (fewer_than_k new) eqn:Hf; cbn [negb]; [|done].
  cbn [delete list_delete].
  destruct post as [|y post]; [done|]. cbn [Insert].
  apply Forall_cons_1 in Hlt as [Hy _]. apply Forall_cons_1 in Hpost as [Hyok _].
  destruct (rank_PushHistory K ts old HK Hts Hold) as [_ Heq].
  specialize (Heq Hf). fold new in Heq.
  destruct (node_lt y new) eqn:Hlt; [|done].
  apply (node_lt_rank K (ts + 1)) in Hlt.
  - unfold rank_lt in Hy. lia.
  - done.
  - eapply node_ok_mono; [|exact Hyok]. lia.
  - apply PushHistory_ok; try done.
    destruct (node_ok_head _ _ _ Hold) as (? & ? & _ & ?). lia.
Qed.

(** The same list results if the node of [it->second] keeps its history
    when it is moved from: the walk of [Insert] goes past it exactly when it
    goes past the emptied node. *)
Lemma reinsert_eq_unmoved (K ts : Z) (pre post : list LRUKNode) (old : LRUKNode) :
  1 ≤ K → ts + 1 ≤ SIZE_MODULUS →
  nodes_inv K ts (pre ++ old :: post) →
  let new := PushHistory ts old in
  node_lt old new = node_lt (moved_from old) new.
Proof.
  intros HK Hts (Hok & _ & _ & _) new.
  apply Forall_app in Hok as [_ Hok]. apply Forall_cons_1 in Hok as [Hold _].
  assert (Hk : LRUKNode.k_ old = K) by apply Hold.
  assert (0 ≤ ts) as H0.
  { destruct (node_ok_head _ _ _ Hold) as (? & ? & _ & ?). lia. }
  pose proof (PushHistory_ok K ts old HK H0 Hold) as Hnew. fold new in Hnew.
  pose proof (node_ok_mono K ts (ts + 1) old ltac:(lia) Hold) as Hold'.
  destruct (rank_PushHistory K ts old HK Hts Hold) as [Hle Heq]. fold new in Hle, Heq.
  rewrite (node_lt_moved_from K ts) by done.
  destruct (fewer_than_k new) eqn:Hf; cbn [negb].
  - apply not_true_is_false. intros Hlt.
    apply (node_lt_rank K (ts + 1)) in Hlt; [|done..]. specialize (Heq eq_refl). lia.
  - apply (node_lt_rank K (ts + 1)); [done..|].
    destruct (Z.eq_dec (rank old) (rank new)) as [Hr|Hr]; [exfalso|lia].
    clear Heq Hle.
    destruct (node_ok_head _ _ _ Hold) as (t & rest & E & Ht).
    destruct Hold as (_ & _ & Hlen & Hs & Hb).
    revert Hr Hf. unfold new, rank, fewer_than_k, PushHistory.
    cbn [history_ LRUKNode.k_]. rewrite E, Hk in *.
    apply StronglySorted_cons in Hs as [Hrest _].
    apply Forall_cons_1 in Hb as [_ Hb].
    destruct (Z.eqb_spec (Z.of_nat (length (t :: rest))) K) as [El|El].
    + cbn [tail]. intros Hr Hf. rewrite Hf in Hr. revert Hr.
      destruct (Z.ltb_spec (Z.of_nat (length (t :: rest))) K); [lia|].
      destruct rest as [|t2 rest]; cbn [app hd].
      * lia.
      * apply Forall_cons_1 in Hrest as [? _]. lia.
    + intros Hr Hf. rewrite Hf in Hr. revert Hr.
      destruct (Z.ltb_spec (Z.of_nat (length (t :: rest))) K); [|lia].
      cbn [app hd]. unfold SIZE_MODULUS. lia.
Qed.

Lemma clock_is_fresh (K ts : Z) (l : list LRUKNode) :
  Forall (node_ok K ts) l → ts ∉ l ≫= history_.
Proof.
  intros Hok (n & Ht & Hn)%list_elem_of_bind.
  rewrite Forall_forall in Hok. destruct (Hok n Hn) as (_ & _ & _ & _ & Hb).
  rewrite Forall_forall in Hb. specialize (Hb ts Ht). lia.
Qed.

Lemma nodes_inv_insert_new (K ts f : Z) (l : list LRUKNode) :
  1 ≤ K → 0 ≤ ts → ts + 1 ≤ SIZE_MODULUS →
  nodes_inv K ts l → f ∉ fid_ <$> l →
  nodes_inv K (ts + 1) (Insert l (PushHistory ts (new_LRUKNode f K))).
Proof.
  intros HK H0 Hts Hinv Hf.
  pose proof (PushHistory_new_ok K ts f HK H0) as Hnew.
  apply (nodes_inv_Insert K (ts + 1) [] l); try done.
  - eapply nodes_inv_mono; [|exact Hinv]. lia.
  - intros t [Ht| ->]%PushHistory_elem_of; [by apply elem_of_nil in Ht|].
    apply (clock_is_fresh K). apply Hinv.
Qed.

Lemma nodes_inv_reinsert (K ts : Z) (pre post : list LRUKNode) (old : LRUKNode) :
  1 ≤ K → 0 ≤ ts → ts + 1 ≤ SIZE_MODULUS →
  nodes_inv K ts (pre ++ old :: post) →
  nodes_inv K (ts + 1) (pre ++ Insert post (PushHistory ts old)).
Proof.
  intros HK H0 Hts Hinv.
  pose proof (nodes_inv_remove _ _ _ _ _ Hinv) as Hrest.
  destruct Hinv as (Hok & Hnd & Hs & Hf).
  assert (node_ok K ts old) as Hold.
  { apply Forall_app in Hok as [_ Hok]. by apply Forall_cons_1 in Hok as [? _]. }
  assert (pre ++ old :: post ≡ₚ old :: (pre ++ post)) as Hperm
    by (by rewrite Permutation_middle).
  apply nodes_inv_Insert; try done.
  - eapply nodes_inv_mono; [|exact Hrest]. lia.
  - by apply PushHistory_ok.
  - rewrite Hperm, fmap_cons in Hf. by apply NoDup_cons_1_1 in Hf.
  - rewrite Hperm, bind_cons in Hnd. apply NoDup_app in Hnd as (_ & Hdisj & _).
    intros t [Ht| ->]%PushHistory_elem_of; [by apply Hdisj|].
    apply (clock_is_fresh K). apply Hrest.
  - apply StronglySorted_app in Hs as (H1 & _ & _).
    destruct (rank_PushHistory K ts old HK Hts Hold) as [Hle _].
    apply Forall_forall. intros x Hx.
    specialize (H1 x old Hx (list_elem_of_here _ _)). unfold rank_lt in H1. lia.
Qed.

Lemma nodes_inv_SetEvictable (K ts : Z) (pre post : list LRUKNode) (n : LRUKNode) (b : bool) :
  nodes_inv K ts (pre ++ n :: post) →
  nodes_inv K ts (pre ++ node_SetEvictable b n :: post).
Proof.
  intros (Hok & Hnd & Hs & Hf). split_and!.
  - apply Forall_app in Hok as [Hpre Hpost].
    apply Forall_cons_1 in Hpost as [Hn Hpost].
    apply Forall_app. split; [done|]. by constructor.
  - by rewrite bind_app, bind_cons in *.
  - apply StronglySorted_app in Hs as (H1 & H2 & H3).
    apply StronglySorted_cons in H3 as [H4 H5].
    apply StronglySorted_app. split_and!; try done.
    + intros x y Hx [->|Hy]%elem_of_cons.
      * apply (H1 x n Hx). apply list_elem_of_here.
      * apply H1; [done|]. by apply list_elem_of_further.
    + by apply StronglySorted_cons.
  - by rewrite fmap_app, fmap_cons in *.
Qed.

(** ** Replacer: the invariant of the reachable states *)


Lemma replacer_inv_iterators_valid (r : LRUKReplacer) :
  replacer_inv r → iterators_valid r.
Proof.
  intros (_ & _ & _ & Hst) f Hf. apply Hst in Hf.
  apply list_elem_of_fmap in Hf as (n & -> & Hn). by exists n.
Qed.

Lemma replacer_inv_new (num_frames k : Z) :
  1 ≤ k → replacer_inv (new_LRUKReplacer num_frames k).
Proof.
  intros Hk. unfold replacer_inv, nodes_inv. cbn. split_and!; try done.
  - constructor.
  - constructor.
  - constructor.
  - intros f. split; [by intros ?%not_elem_of_empty | by intros ?%elem_of_nil].
Qed.

Lemma replacer_inv_erase (r : LRUKReplacer) (pre post : list LRUKNode)
    (x : LRUKNode) (size : Z) :
  replacer_inv r → node_list_ r = pre ++ x :: post →
  replacer_inv (mkReplacer (pre ++ post) (node_store_ r ∖ {[fid_ x]})
                           (current_timestamp_ r) size (replacer_size_ r) (k_ r)).
Proof.
  intros (HK & Hts & Hinv & Hst) E. rewrite E in *.
  unfold replacer_inv. replacer_fields. split_and!; try done; try lia.
  - by eapply nodes_inv_remove.
  - intros f. rewrite elem_of_difference, Hst, not_elem_of_singleton.
    destruct Hinv as (_ & _ & _ & Hnd).
    assert (pre ++ x :: post ≡ₚ x :: (pre ++ post)) as Hperm
      by (by rewrite Permutation_middle).
    rewrite Hperm, fmap_cons in Hnd. apply NoDup_cons_1_1 in Hnd.
    rewrite Hperm, fmap_cons, elem_of_cons. split.
    + by intros [[?|?] ?].
    + intros Hf. split; [by right|]. by intros ->.
Qed.

Lemma Evict_inv (r : LRUKReplacer) :
  replacer_inv r → ∃ res r', Evict r = Ok (res, r') ∧ replacer_inv r'.
Proof.
  intros Hinv. unfold Evict.
  destruct (split_first is_evictable_ (node_list_ r)) as [[[pre v] post]|] eqn:E;
    [|by eauto].
  apply split_first_Some in E as (El & _ & _).
  rewrite decide_True.
  - eexists _, _. split; [done|]. by apply replacer_inv_erase.
  - apply Hinv. rewrite El, fmap_app, fmap_cons, elem_of_app, elem_of_cons. auto.
Qed.

Lemma size_inc_small (ts : Z) :
  0 ≤ ts → ts + 1 < SIZE_MODULUS → size_inc ts = ts + 1.
Proof. intros. unfold size_inc. apply Z.mod_small. lia. Qed.

(** What [RecordAccess] does in a state that satisfies the invariant, before
    the clock wraps: the node of the frame, with the access pushed, is put
    among the other nodes; the call returns unless that makes more than
    [replacer_size_] nodes. *)
Lemma RecordAccess_shape (r : LRUKReplacer) (f : Z) :
  replacer_inv r → current_timestamp_ r + 1 < SIZE_MODULUS →
  ∃ new rest nodes,
    nodes ≡ₚ new :: rest ∧
    fid_ new = f ∧
    (if decide (f ∈ node_store_ r)
     then ∃ old, node_list_ r ≡ₚ old :: rest ∧ fid_ old = f ∧
                 new = PushHistory (current_timestamp_ r) old
     else rest = node_list_ r ∧
          new = PushHistory (current_timestamp_ r) (new_LRUKNode f (k_ r))) ∧
    let r1 := mkReplacer nodes ({[f]} ∪ node_store_ r) (current_timestamp_ r + 1)
                         (curr_size_ r) (replacer_size_ r) (k_ r) in
    replacer_inv r1 ∧
    RecordAccess f r
    = (if replacer_size_ r <? Z.of_nat (length nodes) then Undefined else Ok r1).
Proof.
  intros Hinv Hts. pose proof Hinv as (HK & H0 & Hl & Hst).
  unfold RecordAccess. rewrite size_inc_small by lia.
  case_decide as Hf.
  - destruct (deref_valid r f (replacer_inv_iterators_valid r Hinv) Hf)
      as (pre & old & post & -> & El & Hfid & _).
    cbn [mbind outcome_bind obind]. rewrite El in Hl.
    rewrite (reinsert_eq (k_ r) (current_timestamp_ r) pre post old) by (done || lia).
    exists (PushHistory (current_timestamp_ r) old), (pre ++ post),
           (pre ++ Insert post (PushHistory (current_timestamp_ r) old)).
    split_and!.
    + by rewrite Insert_Permutation, Permutation_middle.
    + done.
    + exists old. split_and!; try done. by rewrite El, Permutation_middle.
    + unfold replacer_inv. replacer_fields. split_and!; try done; try lia.
      * apply nodes_inv_reinsert; try done; lia.
      * intros f'. rewrite elem_of_union, elem_of_singleton, Hst, El.
        rewrite Insert_Permutation, <-!Permutation_middle.
        rewrite !fmap_cons, !elem_of_cons. cbn [fid_ PushHistory].
        rewrite Hfid. tauto.
    + by destruct (_ <? _).
  - cbn [mbind outcome_bind obind].
    exists (PushHistory (current_timestamp_ r) (new_LRUKNode f (k_ r))), (node_list_ r),
           (Insert (node_list_ r) (PushHistory (current_timestamp_ r) (new_LRUKNode f (k_ r)))).
    split_and!; try done.
    + apply Insert_Permutation.
    + unfold replacer_inv. replacer_fields. split_and!; try done; try lia.
      * apply nodes_inv_insert_new; try done; try lia. by rewrite <-Hst.
      * intros f'. rewrite elem_of_union, elem_of_singleton, Hst.
        rewrite Insert_Permutation, fmap_cons, elem_of_cons. done.
Qed.

(** Whether [RecordAccess] returns: the list must not grow beyond
    [replacer_size_] nodes.  A tracked frame keeps its one node, a frame that
    is not tracked adds one. *)
Lemma RecordAccess_returns (r : LRUKReplacer) (f : Z) :
  replacer_inv r → current_timestamp_ r + 1 < SIZE_MODULUS →
  if decide (Z.of_nat (length (node_list_ r))
             + (if decide (f ∈ node_store_ r) then 0 else 1) ≤ replacer_size_ r)
  then ∃ r', RecordAccess f r = Ok r'
  else RecordAccess f r = Undefined.
Proof.
  intros Hinv Hts.
  destruct (RecordAccess_shape r f Hinv Hts)
    as (new & rest & nodes & Hperm & _ & Hcase & _ & ->).
  assert (Z.of_nat (length nodes)
          = Z.of_nat (length (node_list_ r))
            + (if decide (f ∈ node_store_ r) then 0 else 1)) as <-.
  { rewrite Hperm. case_decide.
    - destruct Hcase as (old & -> & _). cbn [length]. lia.
    - destruct Hcase as (-> & _). cbn [length]. lia. }
  destruct (decide (Z.of_nat (length nodes) ≤ replacer_size_ r));
    destruct (Z.ltb_spec (replacer_size_ r) (Z.of_nat (length nodes)));
    try lia; eauto.
Qed.

Lemma RecordAccess_inv (r r' : LRUKReplacer) (f : Z) :
  replacer_inv r → current_timestamp_ r + 1 < SIZE_MODULUS →
  RecordAccess f r = Ok r' → replacer_inv r'.
Proof.
  intros Hinv Hts.
  destruct (RecordAccess_shape r f Hinv Hts) as (new & rest & nodes & _ & _ & _ & Hinv1 & ->).
  destruct (_ <? _); [done|]. by intros [= <-].
Qed.

Lemma SetEvictable_inv (r : LRUKReplacer) (f : Z) (b : bool) :
  replacer_inv r → ∃ r', SetEvictable f b r = Ok r' ∧ replacer_inv r'.
Proof.
  intros Hinv. pose proof Hinv as (HK & H0 & Hl & Hst).
  unfold SetEvictable. case_decide as Hf; [|by eauto].
  destruct (deref_valid r f (replacer_inv_iterators_valid r Hinv) Hf)
    as (pre & n & post & -> & El & Hfid & _).
  cbn [mbind outcome_bind obind]. eexists. split; [done|].
  rewrite El in *. unfold replacer_inv. replacer_fields. split_and!; try done; try lia.
  - by apply nodes_inv_SetEvictable.
  - intros f'. by rewrite Hst, !fmap_app, !fmap_cons.
Qed.

Lemma Remove_inv (r r' : LRUKReplacer) (f : Z) :
  replacer_inv r → Remove f r = Ok r' → replacer_inv r'.
Proof.
  intros Hinv. unfold Remove. case_decide as Hf; [|by intros [= <-]].
  destruct (deref_valid r f (replacer_inv_iterators_valid r Hinv) Hf)
    as (pre & n & post & -> & El & Hfid & _).
  cbn [mbind outcome_bind obind]. destruct (is_evictable_ n); [|done].
  intros [= <-]. rewrite <-Hfid. by apply replacer_inv_erase.
Qed.

Lemma reachable_inv (r : LRUKReplacer) : reachable r → replacer_inv r.
Proof.
  induction 1 as [n k Hk|r r' f _ IH Hts E|r r' res _ IH E|r r' f b _ IH E|r r' f _ IH E].
  - by apply replacer_inv_new.
  - by eapply RecordAccess_inv.
  - destruct (Evict_inv r IH) as (res' & r'' & E' & ?). congruence.
  - destruct (SetEvictable_inv r f b IH) as (r'' & E' & ?). congruence.
  - by eapply Remove_inv.
Qed.

(** ** Replacer: the victim of [Evict] *)

Lemma rank_lt_evicted_before (K ts : Z) (v n : LRUKNode) :
  ts ≤ SIZE_MODULUS → node_ok K ts v → node_ok K ts n →
  rank v < rank n → evicted_before K v n.
Proof.
  intros Hts Hv Hn.
  pose proof (node_ok_kth_recent _ _ _ Hv) as Hkv.
  pose proof (node_ok_kth_recent _ _ _ Hn) as Hkn.
  destruct (node_ok_head _ _ _ Hv) as (tv & rv & Ev & Htv).
  destruct (node_ok_head _ _ _ Hn) as (tn & rn & En & Htn).
  assert (LRUKNode.k_ v = K) as Hk1 by apply Hv.
  assert (LRUKNode.k_ n = K) as Hk2 by apply Hn.
  unfold rank, evicted_before, infinite_distance, kth_from_last.
  unfold kth_recent, oldest, fewer_than_k in *. rewrite Hk1, Hk2 in *.
  rewrite Ev, En in *. cbn [hd head].
  destruct (Z.ltb_spec (Z.of_nat (length (tv :: rv))) K);
    destruct (Z.ltb_spec (Z.of_nat (length (tn :: rn))) K); intros Hr.
  - right. left. split_and!; try done. exists tv, tn. split_and!; try done; lia.
  - left. split; [done|lia].
  - lia.
  - right. right. split_and!; try lia.
    exists tv, tn. rewrite Hkv, Hkn by done. split_and!; try done; lia.
Qed.

(** C5: in every state that a replacer with [k >= 1] reaches through its
    public operations before the 64-bit clock wraps, [Evict] returns.  When
    it returns true, the frame it reports is that of a tracked evictable node
    that goes before every other tracked evictable node under the backward
    K-distance order; when it returns false, no tracked node is evictable and
    the replacer is unchanged. *)
Theorem Evict_selects_greatest_priority (r : LRUKReplacer) :
  reachable r →
  match Evict r with
  | Ok (Some frame_id, r') =>
      ∃ v, v ∈ node_list_ r ∧ fid_ v = frame_id ∧ is_evictable_ v = true ∧
           ∀ n, n ∈ node_list_ r → is_evictable_ n = true → fid_ n ≠ frame_id →
                evicted_before (k_ r) v n
  | Ok (None, r') =>
      r' = r ∧ Forall (λ n, is_evictable_ n = false) (node_list_ r)
  | Undefined | Aborted => False
  end.
Proof.
  intros Hr%reachable_inv. pose proof Hr as (HK & Hts & (Hok & _ & Hs & _) & Hst).
  unfold Evict.
  destruct (split_first is_evictable_ (node_list_ r)) as [[[pre v] post]|] eqn:E.
  - apply split_first_Some in E as (El & Hv & Hpre).
    rewrite decide_True.
    2:{ apply Hst. rewrite El, fmap_app, fmap_cons, elem_of_app, elem_of_cons. auto. }
    rewrite El in *. exists v. split_and!; try done.
    { rewrite elem_of_app, elem_of_cons. auto. }
    intros n Hn Hev Hfid.
    apply StronglySorted_app in Hs as (_ & _ & Hs).
    apply StronglySorted_cons in Hs as [Hlt _].
    rewrite Forall_forall in Hok.
    apply (rank_lt_evicted_before (k_ r) (current_timestamp_ r)); [lia| | |].
    { apply Hok. rewrite elem_of_app, elem_of_cons. auto. }
    { by apply Hok. }
    apply elem_of_app in Hn as [Hn|Hn].
    { rewrite Forall_forall in Hpre. specialize (Hpre n Hn). congruence. }
    apply elem_of_cons in Hn as [->|Hn]; [done|].
    rewrite Forall_forall in Hlt. by apply Hlt.
  - split; [done|]. by apply split_first_None.
Qed.

Ltac reach_RecordAccess f H :=
  match type of H with
  | reachable ?r =>
      let E := fresh "E" in
      let Hts := fresh "Hts" in
      eassert (RecordAccess f r = Ok _) as E by (vm_compute; reflexivity);
      assert (current_timestamp_ r + 1 < SIZE_MODULUS) as Hts by (vm_compute; reflexivity);
      apply (reachable_RecordAccess r _ f H Hts) in E; clear H Hts; rename E into H
  end.

Ltac reach_SetEvictable f b H :=
  match type of H with
  | reachable ?r =>
      let E := fresh "E" in
      eassert (SetEvictable f b r = Ok _) as E by (vm_compute; reflexivity);
      apply (reachable_SetEvictable r _ f b H) in E; clear H; rename E into H
  end.

Lemma lru_k_state_reachable : reachable lru_k_state.
Proof.
  assert (reachable (new_LRUKReplacer 3 2)) as H by (apply reachable_new; lia).
  reach_RecordAccess 1 H. reach_RecordAccess 2 H.
  reach_RecordAccess 1 H. reach_RecordAccess 3 H.
  reach_SetEvictable 1 true H. reach_SetEvictable 2 true H.
  reach_SetEvictable 3 true H.
  vm_compute. exact H.
Qed.

Lemma Evict_selects_greatest_priority_witness :
  reachable lru_k_state ∧
  match Evict lru_k_state with
  | Ok (Some frame_id, r') =>
      ∃ v, v ∈ node_list_ lru_k_state ∧ fid_ v = frame_id ∧ is_evictable_ v = true ∧
           ∀ n, n ∈ node_list_ lru_k_state → is_evictable_ n = true →
                fid_ n ≠ frame_id → evicted_before (k_ lru_k_state) v n
  | Ok (None, r') =>
      r' = lru_k_state ∧ Forall (λ n, is_evictable_ n = false) (node_list_ lru_k_state)
  | Undefined | Aborted => False
  end.
Proof.
  split; [exact lru_k_state_reachable|].
  apply Evict_selects_greatest_priority. exact lru_k_state_reachable.
Defined.

(** ** Replacer: scenario 6 *)

Lemma Insert_length (l : list LRUKNode) (x : LRUKNode) :
  length (Insert l x) = S (length l).
Proof. by rewrite Insert_Permutation. Qed.

Lemma reinsert_Permutation (old new : LRUKNode) (post : list LRUKNode) :
  delete (if node_lt (moved_from old) new then 0%nat else 1%nat)
         (Insert (moved_from old :: post) new)
  ≡ₚ new :: post.
Proof.
  cbn [Insert]. destruct (node_lt (moved_from old) new); cbn [delete list_delete].
  - apply Insert_Permutation.
  - done.
Qed.

(** [RecordAccess] of a frame that is not tracked, with room for its node. *)
Lemma RecordAccess_untracked (f : Z) (l : list LRUKNode) (st : gset Z) (ts cs n k : Z) :
  f ∉ st → Z.of_nat (length l) < n →
  RecordAccess f (mkReplacer l st ts cs n k)
  = Ok (mkReplacer (Insert l (PushHistory ts (new_LRUKNode f k))) ({[f]} ∪ st)
                   (size_inc ts) cs n k).
Proof.
  intros Hf Hn. unfold RecordAccess. replacer_fields.
  rewrite decide_False by done. cbn [mbind outcome_bind obind].
  rewrite Insert_length.
  by destruct (Z.ltb_spec n (Z.of_nat (S (length l)))); [lia|].
Qed.

(** [RecordAccess] of a frame that is not tracked, without room for its
    node. *)
Lemma RecordAccess_overflow (f : Z) (l : list LRUKNode) (st : gset Z) (ts cs n k : Z) :
  f ∉ st → n ≤ Z.of_nat (length l) →
  RecordAccess f (mkReplacer l st ts cs n k) = Undefined.
Proof.
  intros Hf Hn. unfold RecordAccess. replacer_fields.
  rewrite decide_False by done. cbn [mbind outcome_bind obind].
  rewrite Insert_length.
  by destruct (Z.ltb_spec n (Z.of_nat (S (length l)))); [|lia].
Qed.

(** [RecordAccess] of a tracked frame: the list keeps its length. *)
Lemma RecordAccess_tracked (f : Z) (pre post : list LRUKNode) (old : LRUKNode)
    (st : gset Z) (ts cs n k : Z) :
  f ∈ st →
  deref f (pre ++ old :: post) = Ok (pre, old, post) →
  Z.of_nat (length (pre ++ old :: post)) ≤ n →
  let nodes :=
    pre ++ delete (if node_lt (moved_from old) (PushHistory ts old) then 0%nat else 1%nat)
                  (Insert (moved_from old :: post) (PushHistory ts old)) in
  RecordAccess f (mkReplacer (pre ++ old :: post) st ts cs n k)
  = Ok (mkReplacer nodes ({[f]} ∪ st) (size_inc ts) cs n k).
Proof.
  intros Hf Hd Hn nodes. unfold RecordAccess. replacer_fields.
  rewrite decide_True by done. rewrite Hd. cbn [mbind outcome_bind obind].
  fold nodes.
  assert (length nodes = length (pre ++ old :: post)) as Hlen.
  { unfold nodes. rewrite !length_app, reinsert_Permutation. done. }
  rewrite Hlen. by destruct (Z.ltb_spec n (Z.of_nat (length (pre ++ old :: post)))); [lia|].
Qed.

Ltac store_solver :=
  unfold not;
  rewrite ?elem_of_difference, ?elem_of_union, ?elem_of_singleton, ?elem_of_empty;
  intuition congruence.

Ltac replacer_step :=
  cbn [mbind outcome_bind obind app is_evictable_ negb andb node_SetEvictable
       LRUKNode.k_ history_ fid_ node_store_ node_list_ current_timestamp_ k_
       replacer_size_ curr_size_ split_first].

Ltac room := rewrite ?Insert_length; cbn [length app]; lia.

(** C6 (amended): with [K = 2], in a replacer made for at least three
    frames, after accesses to three distinct frames in the order A, B, A, C
    and with all three made evictable, three [Evict] calls return B, then C,
    then A. *)
Theorem lru_k_scenario_order (A B C num_frames : Z) :
  A ≠ B → A ≠ C → B ≠ C → 3 ≤ num_frames →
  lru_k_scenario A B C num_frames = Ok (Some B, Some C, Some A).
Proof.
  intros HAB HAC HBC Hroom. unfold lru_k_scenario, lru_k_accesses, new_LRUKReplacer.
  assert (HBA : (B =? A) = false) by (by apply Z.eqb_neq).
  assert (HCA : (C =? A) = false) by (by apply Z.eqb_neq).
  assert (HBC' : (B =? C) = false) by (by apply Z.eqb_neq).
  rewrite RecordAccess_untracked; [|store_solver|room].
  cbn [mbind outcome_bind obind].
  rewrite RecordAccess_untracked; [|store_solver|room].
  cbn [mbind outcome_bind obind].
  change (Insert _ (PushHistory 0 (new_LRUKNode A 2))) with [LRUKNode.mk [0] 2 A false].
  change (size_inc 0) with 1. change (size_inc 1) with 2.
  change (Insert _ (PushHistory 1 (new_LRUKNode B 2)))
    with [LRUKNode.mk [0] 2 A false; LRUKNode.mk [1] 2 B false].
  rewrite (RecordAccess_tracked A [] [LRUKNode.mk [1] 2 B false] (LRUKNode.mk [0] 2 A false));
    [|store_solver
     |unfold deref; cbn [app split_first fid_]; by rewrite Z.eqb_refl
     |room].
  cbn [mbind outcome_bind obind].
  change (size_inc 2) with 3.
  change ([] ++ delete _ _) with [LRUKNode.mk [1] 2 B false; LRUKNode.mk [0; 2] 2 A false].
  rewrite RecordAccess_untracked; [|store_solver|room].
  cbn [mbind outcome_bind obind].
  change (Insert _ (PushHistory 3 (new_LRUKNode C 2)))
    with [LRUKNode.mk [1] 2 B false; LRUKNode.mk [3] 2 C false; LRUKNode.mk [0; 2] 2 A false].
  unfold SetEvictable, deref. replacer_step.
  rewrite decide_True by store_solver.
  rewrite HBA, HCA, Z.eqb_refl. replacer_step.
  rewrite decide_True by store_solver.
  rewrite Z.eqb_refl. replacer_step.
  rewrite decide_True by store_solver.
  rewrite HBC', Z.eqb_refl. replacer_step.
  unfold Evict. replacer_step.
  rewrite decide_True by store_solver. replacer_step.
  rewrite decide_True by store_solver. replacer_step.
  rewrite decide_True by store_solver.
  done.
Qed.

Lemma lru_k_scenario_order_witness :
  1 ≠ 2 ∧ 1 ≠ 3 ∧ 2 ≠ 3 ∧ 3 ≤ 7 ∧ lru_k_scenario 1 2 3 7 = Ok (Some 2, Some 3, Some 1).
Proof.
  split_and!; [lia | lia | lia | lia | apply lru_k_scenario_order; lia].
Defined.

(** In a replacer made for fewer than three frames the scenario does not
    get to its end: the access that brings one frame too many makes
    [RecordAccess] call [Evict] with [latch_] held. *)
Lemma lru_k_scenario_overflow (A B C num_frames : Z) :
  A ≠ B → A ≠ C → B ≠ C → num_frames < 3 →
  lru_k_scenario A B C num_frames = Undefined.
Proof.
  intros HAB HAC HBC Hroom. unfold lru_k_scenario, lru_k_accesses, new_LRUKReplacer.
  destruct (decide (num_frames ≤ 0)).
  { rewrite RecordAccess_overflow; [done|store_solver|room]. }
  rewrite RecordAccess_untracked; [|store_solver|room].
  cbn [mbind outcome_bind obind].
  destruct (decide (num_frames = 1)).
  { rewrite RecordAccess_overflow; [done|store_solver|room]. }
  rewrite RecordAccess_untracked; [|store_solver|room].
  cbn [mbind outcome_bind obind].
  assert (HBA : (B =? A) = false) by (by apply Z.eqb_neq).
  change (Insert _ (PushHistory 0 (new_LRUKNode A 2))) with [LRUKNode.mk [0] 2 A false].
  change (size_inc 0) with 1. change (size_inc 1) with 2.
  change (Insert _ (PushHistory 1 (new_LRUKNode B 2)))
    with [LRUKNode.mk [0] 2 A false; LRUKNode.mk [1] 2 B false].
  rewrite (RecordAccess_tracked A [] [LRUKNode.mk [1] 2 B false] (LRUKNode.mk [0] 2 A false));
    [|store_solver
     |unfold deref; cbn [app split_first fid_]; by rewrite Z.eqb_refl
     |room].
  cbn [mbind outcome_bind obind].
  change ([] ++ delete _ _) with [LRUKNode.mk [1] 2 B false; LRUKNode.mk [0; 2] 2 A false].
  rewrite RecordAccess_overflow; [done|store_solver|room].
Qed.

(** C6 (as stated) fails: for frames A = 1, B = 2, C = 3 the three victims
    are not C, B, A. *)
Lemma lru_k_scenario_not_C_B_A :
  lru_k_scenario 1 2 3 7 ≠ Ok (Some 3, Some 2, Some 1).
Proof. vm_compute. discriminate. Qed.

(** ** Replacer: [Remove] of a frame that is not tracked *)

(** C10: [Remove(f)] for a frame id with no entry in [node_store_] returns
    normally (no assertion failure, no undefined behaviour) and leaves the
    whole replacer as it was: [curr_size_] is not decremented, [node_list_] and
    [node_store_] are unchanged. *)
Theorem Remove_untracked_is_noop (r : LRUKReplacer) (f : Z) :
  f ∉ node_store_ r → Remove f r = Ok r.
Proof.
  intros Hf. unfold Remove. by rewrite decide_False.
Qed.

Lemma Remove_untracked_is_noop_witness :
  (7 ∉ node_store_ lru_k_state) ∧ Remove 7 lru_k_state = Ok lru_k_state.
Proof.
  split; [ | apply Remove_untracked_is_noop ]; vm_compute; discriminate.
Defined.

(** The assertion of line 80 is reached for tracked frames only. *)
Lemma Remove_aborted_tracked (r : LRUKReplacer) (f : Z) :
  Remove f r = Aborted → f ∈ node_store_ r.
Proof.
  unfold Remove. by case_decide.
Qed.

(** ** Disk scheduler: the value of the completion signal *)

Section SchedulerFacts.
Context {D : Type} {dm : DiskManager D}.

Lemma serve_value (r : DiskRequest) (d : D) :
  signal (serve r d).2 = DiskRequest.callback_ r ∧ value (serve r d).2 = true.
Proof.
  unfold serve. destruct (DiskRequest.is_write_ r).
  - by destruct (WritePage _ _ _).
  - by destruct (ReadPage _ _ _).
Qed.

(** C9 (amended): the worker fires the completion signal of every request
    it serves, in queue order, and always with the value [true], whatever
    the block operation reported. *)
Theorem worker_always_signals_true (queue : list (option DiskRequest)) (d : D) :
  (λ c, (signal c, value c)) <$> (StartWorkerThread queue d).2
  = (λ r, (DiskRequest.callback_ r, true)) <$> served queue.
Proof.
  revert d. induction queue as [|[r|] queue IH]; intros d; try done.
  cbn [StartWorkerThread served].
  pose proof (serve_value r d) as [Hs Hv].
  destruct (serve r d) as [d1 c].
  specialize (IH d1). destruct (StartWorkerThread queue d1) as [d2 cs].
  cbn [snd] in *. by rewrite !fmap_cons, Hs, Hv, IH.
Qed.
End SchedulerFacts.

(** C9 (as stated) fails: a write whose block operation reports an error
    has its signal fired with [true], not [false]. *)
Lemma worker_signals_true_on_error :
  let r := DiskRequest.mk true [Byte.x01] 0 0%nat in
  ¬ ((WritePage 0 [Byte.x01] (tt : BrokenDisk)).2 = false →
     Forall (λ c, value c = false) (StartWorkerThread [Some r] (tt : BrokenDisk)).2).
Proof.
  simpl. intros H. specialize (H eq_refl).
  apply Forall_cons_1 in H as [H _]. discriminate H.
Qed.

(** ** Buffer pool: [DeletePage], [UnpinPage], [FetchPage] *)

Section PoolFacts.
Context {cfg : Config} {D : Type} {dm : DiskManager D}.
Implicit Types s : BufferPoolManager D.

(** C7 (amended): for a page id with no entry in the page table,
    [DeletePage] returns false and leaves the whole pool (frames, page
    table, free list, replacer, page-id counter, disk) as it was. *)
Theorem DeletePage_not_resident s (page_id : Z) :
  page_table_ s !! page_id = None → DeletePage page_id s = Ok (false, s).
Proof.
  intros H. unfold DeletePage. by rewrite H.
Qed.


End PoolFacts.

(** ** Buffer pool: concrete runs *)

Section Runs.
#[local] Existing Instance bustub_config.

Lemma DeletePage_not_resident_witness :
  page_table_ (fresh_pool 3) !! 5 = None ∧
  DeletePage 5 (fresh_pool 3) = Ok (false, fresh_pool 3).
Proof.
  split; [reflexivity | apply DeletePage_not_resident; reflexivity].
Defined.

(** C7 (as stated) fails: page 5 is not resident in a fresh pool, and
    [DeletePage(5)] does not return true. *)
Lemma DeletePage_not_resident_not_true :
  ¬ (page_table_ (fresh_pool 3) !! 5 = None →
     DeletePage 5 (fresh_pool 3) = Ok (true, fresh_pool 3)).
Proof.
  intros H. specialize (H eq_refl).
  unfold DeletePage, fresh_pool, new_BufferPoolManager in H.
  cbn [page_table_] in H. rewrite lookup_empty in H. discriminate H.
Qed.

(** C1: a [FetchPage] that hits leaves the pin count of the frame at 1, as
    [NewPage] set it; of the two [UnpinPage] calls that match the [NewPage]
    and the [FetchPage], the second is refused. *)
Example FetchPage_hit_does_not_pin :
  fetch_hit_run = Ok (1, Some 0, 1, true, false).
Proof. vm_compute. reflexivity. Qed.

(** C2: after [FetchPage] has evicted page 1 from frame 0 to bring page 0
    in, the page table maps both page 0 and page 1 to frame 0, which holds
    page 0. *)
Example FetchPage_eviction_keeps_victim_entry :
  fetch_evict_run = Ok (Some 0, Some 0, Some 0, 0).
Proof. vm_compute. reflexivity. Qed.

(** The eviction branch of [NewPage] does remove the victim's entry. *)
Example NewPage_eviction_erases_victim_entry :
  new_evict_run = Ok (None, Some 0).
Proof. vm_compute. reflexivity. Qed.

(** C3: with frame 0 back on the free list and page id 1 next, [NewPage]
    writes [pages_[1]] in an array of one frame. *)
Example NewPage_writes_outside_frame_array :
  (s ← new_after_delete_prefix;
   Ok (free_list_ s, next_page_id_ s, length (pages_ s),
       update_page (next_page_id_ s) (Page.set_page_id (next_page_id_ s)) (pages_ s)))
  = Ok ([0], 1, 1%nat, Undefined) ∧
  (s ← new_after_delete_prefix; NewPage s) = Undefined.
Proof. split; vm_compute; reflexivity. Qed.

(** C4: the bytes of page 1 reach the disk when [FetchPage(0)] evicts it,
    but [FetchPage(1)] then hits the entry that the eviction left in the page
    table and returns frame 0 with the bytes of page 0. *)
Example round_trip_through_FetchPage_eviction_fails :
  round_trip_run = Ok (Some 0, replicate PAGE_SIZE Byte.x00, Some AB_page) ∧
  replicate PAGE_SIZE Byte.x00 ≠ AB_page.
Proof. split; [vm_compute; reflexivity | discriminate]. Qed.

(** When the page is evicted by [NewPage] instead, the bytes come back. *)
Example round_trip_through_NewPage_eviction :
  round_trip_NewPage_run = Ok (Some 0, AB_page).
Proof. vm_compute. reflexivity. Qed.
End Runs.

(** * Further properties of the replacer *)

Lemma rank_sorted_node_lt (K ts : Z) (l : list LRUKNode) :
  ts ≤ SIZE_MODULUS → Forall (node_ok K ts) l →
  StronglySorted rank_lt l →
  StronglySorted (λ a b, node_lt a b = true) l.
Proof.
  intros Hts Hok Hs. induction Hs as [|x l _ IH Hx]; [constructor|].
  apply Forall_cons_1 in Hok as [Hxok Hok].
  constructor; [by apply IH|].
  apply Forall_forall. intros y Hy.
  rewrite Forall_forall in Hx, Hok.
  apply (node_lt_rank K ts); auto. by apply Hx.
Qed.

(** X1: in every reachable state of the replacer, [node_list_] is in
    eviction order: each node has greater eviction priority ([operator<])
    than every node behind it. *)
Theorem reachable_node_list_sorted (r : LRUKReplacer) :
  reachable r → StronglySorted (λ a b, node_lt a b = true) (node_list_ r).
Proof.
  intros (HK & Hts & (Hok & _ & Hs & _) & _)%reachable_inv.
  apply (rank_sorted_node_lt (k_ r) (current_timestamp_ r)); [lia|done..].
Qed.

Lemma reachable_node_list_sorted_witness :
  reachable lru_k_state ∧
  StronglySorted (λ a b, node_lt a b = true) (node_list_ lru_k_state).
Proof.
  split; [exact lru_k_state_reachable|].
  apply reachable_node_list_sorted. exact lru_k_state_reachable.
Defined.

(** X2: in every reachable state each tracked frame has exactly one node:
    the frame ids of [node_list_] are pairwise distinct and are the keys of
    [node_store_]. *)
Theorem reachable_one_node_per_frame (r : LRUKReplacer) :
  reachable r →
  NoDup (fid_ <$> node_list_ r) ∧
  ∀ f, f ∈ node_store_ r ↔ ∃ n, n ∈ node_list_ r ∧ fid_ n = f.
Proof.
  intros (_ & _ & (_ & _ & _ & Hnd) & Hst)%reachable_inv.
  split; [done|]. intros f. rewrite Hst, list_elem_of_fmap.
  split; [intros (n & -> & Hn) | intros (n & Hn & <-)]; eauto.
Qed.

Lemma reachable_one_node_per_frame_witness :
  reachable lru_k_state ∧
  NoDup (fid_ <$> node_list_ lru_k_state) ∧
  ∀ f, f ∈ node_store_ lru_k_state ↔ ∃ n, n ∈ node_list_ lru_k_state ∧ fid_ n = f.
Proof.
  split; [exact lru_k_state_reachable|].
  apply reachable_one_node_per_frame. exact lru_k_state_reachable.
Defined.

Lemma evictable_count_cons (x : LRUKNode) (l : list LRUKNode) :
  evictable_count (x :: l) = (if is_evictable_ x then 1 else 0) + evictable_count l.
Proof.
  unfold evictable_count. rewrite filter_cons.
  destruct (is_evictable_ x); case_decide; try done. simpl length. lia.
Qed.

Lemma evictable_count_app (l1 l2 : list LRUKNode) :
  evictable_count (l1 ++ l2) = evictable_count l1 + evictable_count l2.
Proof.
  unfold evictable_count. rewrite filter_app, length_app. lia.
Qed.

Lemma evictable_count_Permutation (l1 l2 : list LRUKNode) :
  l1 ≡ₚ l2 → evictable_count l1 = evictable_count l2.
Proof. intros H. unfold evictable_count. by rewrite H. Qed.

Lemma evictable_count_bounds (l : list LRUKNode) :
  0 ≤ evictable_count l ≤ Z.of_nat (length l).
Proof.
  unfold evictable_count.
  pose proof (length_filter (λ n, is_evictable_ n = true) l). lia.
Qed.

Lemma evictable_count_none (l : list LRUKNode) :
  Forall (λ n, is_evictable_ n = false) l → evictable_count l = 0.
Proof.
  induction 1 as [|x l Hx _ IH]; [done|].
  rewrite evictable_count_cons, Hx, IH. done.
Qed.

(** There are no more nodes than ticks of the clock: every node holds a
    timestamp of its own. *)
Lemma nodes_inv_length (K ts : Z) (l : list LRUKNode) :
  0 ≤ ts → nodes_inv K ts l → Z.of_nat (length l) ≤ ts.
Proof.
  intros H0 (Hok & Hnd & _ & _).
  assert (length l ≤ length (l ≫= history_))%nat as H1.
  { clear Hnd. induction Hok as [|x l Hx _ IH]; [done|].
    rewrite bind_cons, length_app. destruct Hx as (_ & Hne & _).
    destruct (history_ x); [done|]. simpl. lia. }
  assert (l ≫= history_ ⊆+ seqZ 0 ts) as H2.
  { apply NoDup_submseteq; [done|]. intros t (n & Ht & Hn)%list_elem_of_bind.
    rewrite Forall_forall in Hok. destruct (Hok n Hn) as (_ & _ & _ & _ & Hb).
    rewrite Forall_forall in Hb. apply elem_of_seqZ. specialize (Hb t Ht). lia. }
  apply submseteq_length in H2. rewrite length_seqZ in H2. lia.
Qed.

Lemma size_dec_small (c : Z) : 1 ≤ c < SIZE_MODULUS → size_dec c = c - 1.
Proof. intros. unfold size_dec. apply Z.mod_small. lia. Qed.

Lemma evictable_count_clock (r : LRUKReplacer) :
  replacer_inv r →
  0 ≤ evictable_count (node_list_ r) ≤ Z.of_nat (length (node_list_ r)) ∧
  Z.of_nat (length (node_list_ r)) < SIZE_MODULUS.
Proof.
  intros (_ & Hts & Hl & _). split; [apply evictable_count_bounds|].
  pose proof (nodes_inv_length _ _ _ (proj1 Hts) Hl). lia.
Qed.

(** Taking an evictable node out of the list, as [Evict] and [Remove] do. *)
Lemma size_ok_erase (r : LRUKReplacer) (pre post : list LRUKNode) (v : LRUKNode) :
  replacer_inv r → size_ok r →
  node_list_ r = pre ++ v :: post → is_evictable_ v = true →
  size_dec (curr_size_ r) = curr_size_ r - 1 ∧
  curr_size_ r - 1 = evictable_count (pre ++ post).
Proof.
  intros Hinv Hsz El Hv. pose proof (evictable_count_clock r Hinv) as [Hb Hlen].
  unfold size_ok in Hsz. rewrite El in *.
  rewrite evictable_count_app, evictable_count_cons, Hv in *.
  pose proof (evictable_count_bounds pre). pose proof (evictable_count_bounds post).
  split; [|lia].
  apply size_dec_small. lia.
Qed.

Lemma size_ok_Evict (r r' : LRUKReplacer) (res : option Z) :
  replacer_inv r → size_ok r → Evict r = Ok (res, r') →
  size_ok r' ∧ curr_size_ r' = curr_size_ r - match res with Some _ => 1 | None => 0 end.
Proof.
  intros Hinv Hsz. unfold Evict.
  destruct (split_first is_evictable_ (node_list_ r)) as [[[pre v] post]|] eqn:E.
  - apply split_first_Some in E as (El & Hv & _).
    destruct (size_ok_erase r pre post v Hinv Hsz El Hv) as [Hdec Hcount].
    case_decide; [|done]. intros [= <- <-]. unfold size_ok. replacer_fields.
    rewrite Hdec. done.
  - intros [= <- <-]. split; [done|lia].
Qed.

Lemma size_ok_RecordAccess (r r' : LRUKReplacer) (f : Z) :
  replacer_inv r → size_ok r → current_timestamp_ r + 1 < SIZE_MODULUS →
  RecordAccess f r = Ok r' → size_ok r'.
Proof.
  intros Hinv Hsz Hts.
  destruct (RecordAccess_shape r f Hinv Hts)
    as (new & rest & nodes & Hperm & Hfid & Hcase & Hinv1 & ->).
  assert (size_ok (mkReplacer nodes ({[f]} ∪ node_store_ r) (current_timestamp_ r + 1)
                              (curr_size_ r) (replacer_size_ r) (k_ r))) as Hsz1.
  { unfold size_ok in *. replacer_fields. rewrite Hsz.
    rewrite (evictable_count_Permutation _ _ Hperm), evictable_count_cons.
    case_decide.
    - destruct Hcase as (old & Hperm' & _ & ->).
      rewrite (evictable_count_Permutation _ _ Hperm'), evictable_count_cons. done.
    - destruct Hcase as (-> & ->). done. }
  destruct (_ <? _); [done|]. by intros [= <-].
Qed.

Lemma size_ok_SetEvictable (r r' : LRUKReplacer) (f : Z) (b : bool) :
  replacer_inv r → size_ok r → SetEvictable f b r = Ok r' → size_ok r'.
Proof.
  intros Hinv Hsz. pose proof (evictable_count_clock r Hinv) as [Hb Hlen].
  unfold SetEvictable. case_decide as Hf; [|by intros [= <-]].
  destruct (deref_valid r f (replacer_inv_iterators_valid r Hinv) Hf)
    as (pre & n & post & -> & El & Hfid & _).
  cbn [mbind outcome_bind obind]. intros [= <-].
  unfold size_ok in *. replacer_fields. rewrite El in *.
  rewrite !evictable_count_app, !evictable_count_cons in *.
  rewrite length_app in Hlen. cbn [length] in Hlen.
  pose proof (evictable_count_bounds pre). pose proof (evictable_count_bounds post).
  cbn [node_SetEvictable is_evictable_].
  destruct (is_evictable_ n), b; cbn [negb andb]; try lia.
  - rewrite size_dec_small; lia.
  - unfold size_inc. rewrite Z.mod_small; lia.
Qed.

Lemma size_ok_Remove (r r' : LRUKReplacer) (f : Z) :
  replacer_inv r → size_ok r → Remove f r = Ok r' → size_ok r'.
Proof.
  intros Hinv Hsz. unfold Remove. case_decide as Hf; [|by intros [= <-]].
  destruct (deref_valid r f (replacer_inv_iterators_valid r Hinv) Hf)
    as (pre & n & post & -> & El & Hfid & _).
  cbn [mbind outcome_bind obind]. destruct (is_evictable_ n) eqn:Hn; [|done].
  intros [= <-].
  destruct (size_ok_erase r pre post n Hinv Hsz El Hn) as [Hdec Hcount].
  unfold size_ok. replacer_fields. by rewrite Hdec.
Qed.

Lemma reachable_size_ok (r : LRUKReplacer) : reachable r → size_ok r.
Proof.
  induction 1 as [n k Hk|r r' f Hr IH Hts E|r r' res Hr IH E|r r' f b Hr IH E|r r' f Hr IH E].
  - done.
  - eapply size_ok_RecordAccess; eauto using reachable_inv.
  - eapply size_ok_Evict; eauto using reachable_inv.
  - eapply size_ok_SetEvictable; eauto using reachable_inv.
  - eapply size_ok_Remove; eauto using reachable_inv.
Qed.

(** X3: in every reachable state [Size()] is the number of tracked frames
    that are evictable; the unsigned counter never wraps. *)
Theorem Size_counts_evictable (r : LRUKReplacer) :
  reachable r → Size r = evictable_count (node_list_ r).
Proof. apply reachable_size_ok. Qed.

Lemma Size_counts_evictable_witness :
  reachable lru_k_state ∧ Size lru_k_state = evictable_count (node_list_ lru_k_state).
Proof.
  split; [exact lru_k_state_reachable|].
  apply Size_counts_evictable. exact lru_k_state_reachable.
Defined.

(** The list never holds more than [replacer_size_] nodes: [RecordAccess]
    does not return otherwise. *)
Lemma reachable_capacity (r : LRUKReplacer) :
  reachable r → Z.of_nat (length (node_list_ r)) ≤ Z.max 0 (replacer_size_ r).
Proof.
  induction 1 as [n k Hk|r r' f Hr IH Hts E|r r' res Hr IH E|r r' f b Hr IH E|r r' f Hr IH E].
  - cbn. lia.
  - destruct (RecordAccess_shape r f (reachable_inv r Hr) Hts)
      as (new & rest & nodes & _ & _ & _ & _ & E').
    rewrite E' in E.
    destruct (Z.ltb_spec (replacer_size_ r) (Z.of_nat (length nodes))); [done|].
    injection E as <-. replacer_fields. lia.
  - unfold Evict in E.
    destruct (split_first is_evictable_ (node_list_ r)) as [[[pre v] post]|] eqn:Es.
    + apply split_first_Some in Es as (El & _). case_decide; [|done].
      injection E as <- <-. replacer_fields.
      rewrite El, length_app in IH. cbn [length] in IH. rewrite length_app. lia.
    + by injection E as <- <-.
  - unfold SetEvictable in E. case_decide; [|by injection E as <-].
    unfold deref in E.
    destruct (split_first _ (node_list_ r)) as [[[pre n] post]|] eqn:Es; [|done].
    apply split_first_Some in Es as (El & _).
    cbn [mbind outcome_bind obind] in E. injection E as <-. replacer_fields.
    rewrite El, length_app in IH. cbn [length] in IH.
    rewrite length_app. cbn [length]. lia.
  - unfold Remove in E. case_decide; [|by injection E as <-].
    unfold deref in E.
    destruct (split_first _ (node_list_ r)) as [[[pre n] post]|] eqn:Es; [|done].
    apply split_first_Some in Es as (El & _).
    cbn [mbind outcome_bind obind] in E. destruct (is_evictable_ n); [|done].
    injection E as <-. replacer_fields.
    rewrite El, length_app in IH. cbn [length] in IH. rewrite length_app. lia.
Qed.

(** X4: in every reachable state [Evict] and [SetEvictable] return and
    [Remove] returns or is stopped by its assertion: no invalid iterator is
    dereferenced or erased.  [RecordAccess] (before the clock wraps) returns
    for a tracked frame, and for a frame that is not tracked as long as fewer
    than [replacer_size_] frames are tracked; for a frame that is not tracked
    in a full replacer it has undefined behaviour: it calls [Evict] while it
    holds the latch that [Evict] locks. *)
Theorem reachable_operations_defined (r : LRUKReplacer) (f : Z) (b : bool) :
  reachable r →
  (current_timestamp_ r + 1 < SIZE_MODULUS →
   if decide (f ∈ node_store_ r ∨ Z.of_nat (length (node_list_ r)) < replacer_size_ r)
   then ∃ r', RecordAccess f r = Ok r'
   else RecordAccess f r = Undefined) ∧
  (∃ res r', Evict r = Ok (res, r')) ∧
  (∃ r', SetEvictable f b r = Ok r') ∧
  Remove f r ≠ Undefined.
Proof.
  intros Hr. pose proof (reachable_capacity r Hr) as Hcap.
  apply reachable_inv in Hr as Hinv. split_and!.
  - intros Hts. pose proof (RecordAccess_returns r f Hinv Hts) as Hret.
    assert (f ∈ node_store_ r → 1 ≤ Z.of_nat (length (node_list_ r))) as Hne.
    { intros Hf. destruct (replacer_inv_iterators_valid r Hinv f Hf) as (n & Hn & _).
      destruct (node_list_ r); [by apply elem_of_nil in Hn|]. cbn [length]. lia. }
    destruct (decide (f ∈ node_store_ r)) as [Hf|Hf].
    + specialize (Hne Hf). rewrite decide_True by auto.
      rewrite decide_True in Hret by lia. done.
    + destruct (decide (Z.of_nat (length (node_list_ r)) < replacer_size_ r)).
      * rewrite decide_True by auto. rewrite decide_True in Hret by lia. done.
      * rewrite decide_False by tauto. rewrite decide_False in Hret by lia. done.
  - destruct (Evict_inv r Hinv) as (res & r' & ? & _). eauto.
  - destruct (SetEvictable_inv r f b Hinv) as (r' & ? & _). eauto.
  - unfold Remove. case_decide as Hf; [|done].
    destruct (deref_valid r f (replacer_inv_iterators_valid r Hinv) Hf)
      as (pre & n & post & -> & _).
    cbn [mbind outcome_bind obind]. by destruct (is_evictable_ n).
Qed.

Lemma reachable_operations_defined_witness :
  reachable lru_k_state ∧
  (current_timestamp_ lru_k_state + 1 < SIZE_MODULUS →
   if decide (7 ∈ node_store_ lru_k_state
              ∨ Z.of_nat (length (node_list_ lru_k_state)) < replacer_size_ lru_k_state)
   then ∃ r', RecordAccess 7 lru_k_state = Ok r'
   else RecordAccess 7 lru_k_state = Undefined) ∧
  (∃ res r', Evict lru_k_state = Ok (res, r')) ∧
  (∃ r', SetEvictable 7 false lru_k_state = Ok r') ∧
  Remove 7 lru_k_state ≠ Undefined.
Proof.
  split; [exact lru_k_state_reachable|].
  exact (reachable_operations_defined lru_k_state 7 false lru_k_state_reachable).
Defined.

(** The nodes that are left when the node of a frame is taken out. *)
Lemma erase_elem_of (r : LRUKReplacer) (pre post : list LRUKNode) (x m : LRUKNode) :
  replacer_inv r → node_list_ r = pre ++ x :: post →
  m ∈ pre ++ post ↔ m ∈ node_list_ r ∧ fid_ m ≠ fid_ x.
Proof.
  intros (_ & _ & (_ & _ & _ & Hnd) & _) El. rewrite El in *.
  assert (pre ++ x :: post ≡ₚ x :: (pre ++ post)) as Hperm
    by (by rewrite Permutation_middle).
  rewrite Hperm in Hnd. rewrite Hperm, elem_of_cons.
  rewrite fmap_cons in Hnd. apply NoDup_cons_1_1 in Hnd.
  split.
  - intros Hm. split; [by right|]. intros E. apply Hnd. rewrite <-E.
    by apply list_elem_of_fmap_2.
  - by intros [[->|?] ?].
Qed.

(** X5: in a reachable state, [Remove] of a tracked frame whose node is
    not evictable is stopped by the assertion; if the node is evictable the
    call returns, the frame is no longer tracked, the other nodes stay, and
    [Size()] is one less. *)
Theorem Remove_tracked (r : LRUKReplacer) (f : Z) :
  reachable r → f ∈ node_store_ r →
  ∃ n, n ∈ node_list_ r ∧ fid_ n = f ∧
       if is_evictable_ n
       then ∃ r', Remove f r = Ok r' ∧
                  (f ∉ node_store_ r') ∧
                  (∀ m, m ∈ node_list_ r' ↔ m ∈ node_list_ r ∧ fid_ m ≠ f) ∧
                  Size r' = Size r - 1
       else Remove f r = Aborted.
Proof.
  intros Hr Hf. pose proof (reachable_inv r Hr) as Hinv.
  pose proof (reachable_size_ok r Hr) as Hsz.
  destruct (deref_valid r f (replacer_inv_iterators_valid r Hinv) Hf)
    as (pre & n & post & Hd & El & Hfid & _).
  exists n. split; [rewrite El, elem_of_app, elem_of_cons; auto|]. split; [done|].
  unfold Remove. rewrite decide_True by done. rewrite Hd.
  cbn [mbind outcome_bind obind]. destruct (is_evictable_ n) eqn:Hn; [|done].
  eexists. split; [done|]. unfold Size. replacer_fields.
  destruct (size_ok_erase r pre post n Hinv Hsz El Hn) as [Hdec _].
  split_and!.
  - rewrite elem_of_difference, elem_of_singleton. tauto.
  - intros m. rewrite <-Hfid. by apply erase_elem_of.
  - done.
Qed.

Lemma Remove_tracked_witness :
  reachable lru_k_state ∧ 2 ∈ node_store_ lru_k_state ∧
  ∃ n, n ∈ node_list_ lru_k_state ∧ fid_ n = 2 ∧
       if is_evictable_ n
       then ∃ r', Remove 2 lru_k_state = Ok r' ∧
                  (2 ∉ node_store_ r') ∧
                  (∀ m, m ∈ node_list_ r' ↔ m ∈ node_list_ lru_k_state ∧ fid_ m ≠ 2) ∧
                  Size r' = Size lru_k_state - 1
       else Remove 2 lru_k_state = Aborted.
Proof.
  assert (2 ∈ node_store_ lru_k_state) as H by (vm_compute; reflexivity).
  split; [exact lru_k_state_reachable|]. split; [exact H|].
  apply Remove_tracked; [exact lru_k_state_reachable | exact H].
Defined.

(** X7: in a reachable state, a frame that [Evict] returns is no longer
    tracked afterwards (its history is gone), every other node stays, and
    [Size()] is one less. *)
Theorem Evict_untracks_victim (r r' : LRUKReplacer) (f : Z) :
  reachable r → Evict r = Ok (Some f, r') →
  (f ∉ node_store_ r') ∧
  (∀ m, m ∈ node_list_ r' ↔ m ∈ node_list_ r ∧ fid_ m ≠ f) ∧
  (∀ g, g ≠ f → g ∈ node_store_ r' ↔ g ∈ node_store_ r) ∧
  Size r' = Size r - 1.
Proof.
  intros Hr. pose proof (reachable_inv r Hr) as Hinv.
  pose proof (reachable_size_ok r Hr) as Hsz. intros E.
  destruct (size_ok_Evict r r' (Some f) Hinv Hsz E) as [_ Hsize].
  revert E. unfold Evict.
  destruct (split_first is_evictable_ (node_list_ r)) as [[[pre v] post]|] eqn:Es; [|done].
  apply split_first_Some in Es as (El & Hv & _).
  case_decide; [|done]. intros [= <- <-]. replacer_fields. split_and!.
  - rewrite elem_of_difference, elem_of_singleton. tauto.
  - intros m. by apply erase_elem_of.
  - intros g Hg. rewrite elem_of_difference, elem_of_singleton. tauto.
  - done.
Qed.

Lemma Evict_untracks_victim_witness :
  ∃ r', reachable lru_k_state ∧ Evict lru_k_state = Ok (Some 2, r') ∧
        (2 ∉ node_store_ r') ∧
        (∀ m, m ∈ node_list_ r' ↔ m ∈ node_list_ lru_k_state ∧ fid_ m ≠ 2) ∧
        (∀ g, g ≠ 2 → g ∈ node_store_ r' ↔ g ∈ node_store_ lru_k_state) ∧
        Size r' = Size lru_k_state - 1.
Proof.
  eassert (Evict lru_k_state = Ok (Some 2, _)) as E by (vm_compute; reflexivity).
  eexists. split; [exact lru_k_state_reachable|]. split; [exact E|].
  exact (Evict_untracks_victim _ _ _ lru_k_state_reachable E).
Defined.

Lemma split_first_app {A} (P : A → bool) (pre post : list A) (x : A) :
  Forall (λ y, P y = false) pre → P x = true →
  split_first P (pre ++ x :: post) = Some (pre, x, post).
Proof.
  intros Hpre Hx. induction Hpre as [|y pre Hy _ IH]; simpl.
  - by rewrite Hx.
  - by rewrite Hy, IH.
Qed.

(** X6: [SetEvictable] is idempotent: a second call with the same frame
    and flag changes nothing, in particular it does not count the frame
    twice in [curr_size_]. *)
Theorem SetEvictable_idempotent (r r1 : LRUKReplacer) (f : Z) (b : bool) :
  SetEvictable f b r = Ok r1 → SetEvictable f b r1 = Ok r1.
Proof.
  unfold SetEvictable at 1. case_decide as Hf.
  - unfold deref.
    destruct (split_first (λ n, fid_ n =? f) (node_list_ r)) as [[[pre n] post]|] eqn:E;
      [|done].
    apply split_first_Some in E as (El & Hn & Hpre).
    cbn [mbind outcome_bind obind]. intros [= <-].
    unfold SetEvictable, deref. replacer_fields. rewrite decide_True by done.
    rewrite (split_first_app _ pre post (node_SetEvictable b n)) by done.
    cbn [mbind outcome_bind obind node_SetEvictable is_evictable_ history_ fid_ LRUKNode.k_].
    by destruct b.
  - intros [= <-]. unfold SetEvictable. by rewrite decide_False.
Qed.

Lemma SetEvictable_idempotent_witness :
  ∃ r1, SetEvictable 2 false lru_k_state = Ok r1 ∧ SetEvictable 2 false r1 = Ok r1.
Proof.
  eassert (SetEvictable 2 false lru_k_state = Ok _) as E by (vm_compute; reflexivity).
  eexists. split; [exact E|]. exact (SetEvictable_idempotent _ _ _ _ E).
Defined.

(** X8: in a reachable state, before the clock wraps, [RecordAccess] of a
    frame that is not tracked: if fewer than [replacer_size_] frames are
    tracked, it returns with the frame tracked by a new node that is not
    evictable and whose history is the one timestamp of the call, next to the
    nodes there were, and [Size()] is unchanged; if the replacer is full, it
    has undefined behaviour (it calls [Evict] with the latch held). *)
Theorem RecordAccess_new_frame (r : LRUKReplacer) (f : Z) :
  reachable r → current_timestamp_ r + 1 < SIZE_MODULUS → f ∉ node_store_ r →
  if decide (Z.of_nat (length (node_list_ r)) < replacer_size_ r)
  then ∃ r' n, RecordAccess f r = Ok r' ∧
               node_store_ r' = {[f]} ∪ node_store_ r ∧
               current_timestamp_ r' = current_timestamp_ r + 1 ∧
               node_list_ r' ≡ₚ n :: node_list_ r ∧
               fid_ n = f ∧ is_evictable_ n = false ∧
               history_ n = [current_timestamp_ r] ∧
               Size r' = Size r
  else RecordAccess f r = Undefined.
Proof.
  intros Hinv%reachable_inv Hts Hf.
  destruct (RecordAccess_shape r f Hinv Hts)
    as (new & rest & nodes & Hperm & Hfid & Hcase & Hinv1 & ->).
  rewrite decide_False in Hcase by done. destruct Hcase as (-> & Hnew).
  assert (is_evictable_ new = false ∧ history_ new = [current_timestamp_ r]) as [Hev Hh].
  { rewrite Hnew. unfold PushHistory, new_LRUKNode. cbn. by destruct (_ =? _). }
  assert (length nodes = S (length (node_list_ r))) as -> by (by rewrite Hperm).
  case_decide; destruct (Z.ltb_spec (replacer_size_ r) (Z.of_nat (S (length (node_list_ r)))));
    try lia; [|done].
  eexists _, new. split; [done|]. replacer_fields. by split_and!.
Qed.

Lemma lru_k_state_after_Evict_reachable : reachable lru_k_state_after_Evict.
Proof.
  apply (reachable_Evict lru_k_state _ (Some 2) lru_k_state_reachable).
  vm_compute. reflexivity.
Qed.

Lemma RecordAccess_new_frame_witness :
  reachable lru_k_state_after_Evict ∧
  current_timestamp_ lru_k_state_after_Evict + 1 < SIZE_MODULUS ∧
  (7 ∉ node_store_ lru_k_state_after_Evict) ∧
  if decide (Z.of_nat (length (node_list_ lru_k_state_after_Evict))
             < replacer_size_ lru_k_state_after_Evict)
  then ∃ r' n, RecordAccess 7 lru_k_state_after_Evict = Ok r' ∧
               node_store_ r' = {[7]} ∪ node_store_ lru_k_state_after_Evict ∧
               current_timestamp_ r' = current_timestamp_ lru_k_state_after_Evict + 1 ∧
               node_list_ r' ≡ₚ n :: node_list_ lru_k_state_after_Evict ∧
               fid_ n = 7 ∧ is_evictable_ n = false ∧
               history_ n = [current_timestamp_ lru_k_state_after_Evict] ∧
               Size r' = Size lru_k_state_after_Evict
  else RecordAccess 7 lru_k_state_after_Evict = Undefined.
Proof.
  assert (current_timestamp_ lru_k_state_after_Evict + 1 < SIZE_MODULUS) as H1
    by (vm_compute; reflexivity).
  assert (7 ∉ node_store_ lru_k_state_after_Evict) as H2 by (vm_compute; discriminate).
  split; [exact lru_k_state_after_Evict_reachable|]. split; [exact H1|]. split; [exact H2|].
  exact (RecordAccess_new_frame lru_k_state_after_Evict 7
           lru_k_state_after_Evict_reachable H1 H2).
Defined.

(** * Further properties of the disk scheduler *)

Section SchedulerMore.
Context {D : Type} {dm : DiskManager D}.

(** X9: the worker stops at the first [std::nullopt]: whatever is in the
    queue behind it is never served. *)
Theorem worker_stops_at_sentinel (q1 q2 : list (option DiskRequest)) (d : D) :
  StartWorkerThread (q1 ++ None :: q2) d = StartWorkerThread q1 d.
Proof.
  revert d. induction q1 as [|[r|] q1 IH]; intros d; cbn [app StartWorkerThread]; try done.
  destruct (serve r d) as [d1 c]. by rewrite IH.
Qed.

(** X10: requests are served in queue order: serving a queue that starts
    with the requests [rs] is serving [rs] and then the rest on the disk that
    [rs] left, the completions of [rs] coming first. *)
Theorem worker_serves_in_order (rs : list DiskRequest) (q : list (option DiskRequest)) (d : D) :
  StartWorkerThread ((Some <$> rs) ++ q) d
  = (let '(d1, cs1) := StartWorkerThread (Some <$> rs) d in
     let '(d2, cs2) := StartWorkerThread q d1 in
     (d2, cs1 ++ cs2)).
Proof.
  revert d. induction rs as [|r rs IH]; intros d.
  - cbn. by destruct (StartWorkerThread q d).
  - cbn [fmap list_fmap app StartWorkerThread].
    destruct (serve r d) as [d1 c]. rewrite IH.
    destruct (StartWorkerThread (Some <$> rs) d1) as [d2 cs1].
    by destruct (StartWorkerThread q d2) as [d3 cs2].
Qed.

(** X11: a request scheduled behind the shutdown sentinel is never served
    (its promise is never fulfilled); a request scheduled on a queue without
    sentinel is served last. *)
Theorem Schedule_served (r : DiskRequest) (q : list (option DiskRequest)) :
  served (Schedule r q) = if has_sentinel q then served q else served q ++ [r].
Proof.
  unfold Schedule. induction q as [|[r'|] q IH]; cbn [app served has_sentinel existsb orb];
    try done.
  fold (has_sentinel q). rewrite IH. by destruct (has_sentinel q).
Qed.
End SchedulerMore.

Section SchedulerMemoryDisk.
Context {cfg : Config}.

Lemma serve_write (d : MemoryDisk) (p : Z) (b : bytes) (c : nat) :
  serve (DiskRequest.mk true b p c) d = (<[p:=b]> d, mkCompletion c true b).
Proof. done. Qed.

Lemma serve_read (d : MemoryDisk) (p : Z) (buf : bytes) (c : nat) :
  serve (DiskRequest.mk false buf p c) d
  = (d, mkCompletion c true (default (replicate PAGE_SIZE Byte.x00) (d !! p))).
Proof. done. Qed.

Lemma worker_last_read
    (rs : list DiskRequest) (d : MemoryDisk) (p : Z) (b buf : bytes) (cr : nat) :
  Forall (λ r, DiskRequest.is_write_ r = true → DiskRequest.page_id_ r ≠ p) rs →
  d !! p = Some b →
  last (StartWorkerThread ((Some <$> rs) ++ [Some (DiskRequest.mk false buf p cr)]) d).2
  = Some (mkCompletion cr true b).
Proof.
  revert d. induction rs as [|r rs IH]; intros d Hrs Hd.
  - cbn [fmap list_fmap app StartWorkerThread]. rewrite serve_read.
    unfold MemoryDisk in *. by rewrite Hd.
  - apply Forall_cons_1 in Hrs as [Hr Hrs].
    cbn [fmap list_fmap app StartWorkerThread].
    assert ((serve r d).1 !! p = Some b) as Hd1.
    { destruct r as [w b' p' c']. destruct w.
      - rewrite serve_write. cbn [fst]. unfold MemoryDisk in *.
        rewrite lookup_insert_ne; [done|]. by apply Hr.
      - by rewrite serve_read. }
    destruct (serve r d) as [d1 c]. cbn [fst] in Hd1.
    specialize (IH d1 Hrs Hd1).
    destruct (StartWorkerThread _ d1) as [d2 cs]. cbn [snd] in *.
    rewrite last_cons, IH. done.
Qed.

(** X12: over a block device that keeps what is written, a read request
    gets the bytes of the latest write request for its page that is in front
    of it in the queue: with a write of [b] to page [p], then requests that do
    not write page [p], then a read of page [p], the last completion carries
    [b] in the read's buffer. *)
Theorem worker_read_sees_earlier_write
    (d : MemoryDisk) (p : Z) (b buf : bytes) (cw cr : nat) (rs : list DiskRequest) :
  Forall (λ r, DiskRequest.is_write_ r = true → DiskRequest.page_id_ r ≠ p) rs →
  last (StartWorkerThread
          (Some (DiskRequest.mk true b p cw) :: (Some <$> rs)
             ++ [Some (DiskRequest.mk false buf p cr)]) d).2
  = Some (mkCompletion cr true b).
Proof.
  intros Hrs. cbn [StartWorkerThread]. rewrite serve_write.
  pose proof (worker_last_read rs (<[p:=b]> d) p b buf cr Hrs) as Hl.
  destruct (StartWorkerThread _ (<[p:=b]> d)) as [d1 cs]. cbn [snd] in *.
  rewrite last_cons, Hl; [done|]. unfold MemoryDisk. apply lookup_insert_eq.
Qed.
End SchedulerMemoryDisk.

(** * Further properties of the buffer pool manager *)

Lemma update_page_Ok (i : Z) (g : Page → Page) (l l' : list Page) :
  update_page i g l = Ok l' ↔
  ∃ p, 0 ≤ i ∧ l !! Z.to_nat i = Some p ∧ l' = <[Z.to_nat i := g p]> l.
Proof.
  unfold update_page. destruct (page_at i l) as [p| |] eqn:E; cbn [mbind outcome_bind obind].
  - apply page_at_Ok in E as [H0 Hp]. split.
    + intros [= <-]. by exists p.
    + intros (q & _ & Hq & ->). rewrite Hp in Hq. by injection Hq as ->.
  - split; [done|]. intros (q & H0 & Hq & _).
    assert (page_at i l = Ok q) as E' by (by apply page_at_Ok). congruence.
  - unfold page_at in E. destruct (0 <=? i); [|done]. by destruct (l !! Z.to_nat i).
Qed.

Lemma update_page_lookup (i : Z) (g : Page → Page) (l l' : list Page) :
  update_page i g l = Ok l' →
  0 ≤ i ∧ length l' = length l ∧
  l' !! Z.to_nat i = g <$> l !! Z.to_nat i ∧
  ∀ j, j ≠ Z.to_nat i → l' !! j = l !! j.
Proof.
  intros (p & H0 & Hp & ->)%update_page_Ok. split_and!; try done.
  - apply length_insert.
  - rewrite Hp. apply list_lookup_insert_eq. by eapply lookup_lt_Some.
  - intros j Hj. by apply list_lookup_insert_ne.
Qed.

Tactic Notation "bind_Ok" simple_intropattern(x) ident(E) :=
  match goal with
  | |- (?m ≫= _) = _ → _ =>
      destruct m as [x| |] eqn:E; cbn [mbind outcome_bind obind]; [|discriminate..]
  end.

Section PoolMore.
Context {cfg : Config} {D : Type} {dm : DiskManager D}.
Implicit Types s : BufferPoolManager D.

Lemma fresh_frame_eq (page_id : Z) (p : Page) :
  Page.set_pin_count 1 (ResetPage page_id p) = new_frame page_id.
Proof. done. Qed.

Lemma WritePageToDisk_disk (page : Page) (disk : D) :
  (WritePageToDisk page disk).1 = (WritePage (Page.page_id_ page) (Page.data_ page) disk).1.
Proof.
  unfold WritePageToDisk, serve. cbn. by destruct (WritePage _ _ _).
Qed.

Lemma ReadPageFromDisk_page (page : Page) (disk : D) :
  (ReadPageFromDisk page disk).1
  = Page.set_data (ReadPage (Page.page_id_ page) (Page.data_ page) disk).1 page.
Proof.
  unfold ReadPageFromDisk, serve. cbn. by destruct (ReadPage _ _ _).
Qed.

(** What a [NewPage] that evicts leaves: the whole of the branch. *)
Lemma NewPage_evict_inv s s' (page_id frame_id : Z) :
  free_list_ s = [] →
  NewPage s = Ok (Some (page_id, frame_id), s') →
  ∃ victim rep,
    Evict (replacer_ s) = Ok (Some frame_id, rep) ∧
    pages_ s !! Z.to_nat frame_id = Some victim ∧
    page_id = next_page_id_ s ∧
    next_page_id_ s' = wrap_int32 (page_id + 1) ∧
    0 ≤ frame_id ∧
    pages_ s' !! Z.to_nat frame_id = Some (new_frame page_id) ∧
    length (pages_ s') = length (pages_ s) ∧
    (∀ j, j ≠ Z.to_nat frame_id → pages_ s' !! j = pages_ s !! j) ∧
    disk_ s' = written_back victim (disk_ s) ∧
    page_table_ s' = <[page_id := frame_id]> (delete (Page.page_id_ victim) (page_table_ s)) ∧
    RecordAccess frame_id rep = Ok (replacer_ s') ∧
    free_list_ s' = [].
Proof.
  intros Hfree. unfold NewPage, AllocatePage. rewrite Hfree.
  bind_Ok [victim rep] E. destruct victim as [v|]; [|done].
  bind_Ok page Ep. bind_Ok pages1 E1. bind_Ok pages2 E2. bind_Ok rep1 E3.
  intros [= <- <- <-].
  cbn [next_page_id_ pages_ page_table_ disk_ replacer_ free_list_].
  apply page_at_Ok in Ep as [_ Hp].
  apply update_page_lookup in E1 as (H0 & Hl1 & Hf1 & Ho1).
  apply update_page_lookup in E2 as (_ & Hl2 & Hf2 & Ho2).
  exists page, rep. split_and!; try done.
  - rewrite Hf2, Hf1, Hp. done.
  - congruence.
  - intros j Hj. by rewrite Ho2, Ho1.
  - unfold written_back. destruct (Page.is_dirty_ page); [|done].
    apply WritePageToDisk_disk.
Qed.

(** What a [NewPage] that finds a free frame leaves: the whole of the
    branch.  The frame indexed by the page id is reset too. *)
Lemma NewPage_free_inv s s' (f : Z) (rest : list Z) (res : option (Z * Z)) :
  free_list_ s = f :: rest →
  NewPage s = Ok (res, s') →
  res = Some (next_page_id_ s, f) ∧
  next_page_id_ s' = wrap_int32 (next_page_id_ s + 1) ∧
  0 ≤ f ∧
  pages_ s' !! Z.to_nat f = Some (new_frame (next_page_id_ s)) ∧
  length (pages_ s') = length (pages_ s) ∧
  (∀ j, j ≠ Z.to_nat f → j ≠ Z.to_nat (next_page_id_ s) → pages_ s' !! j = pages_ s !! j) ∧
  disk_ s' = disk_ s ∧
  page_table_ s' = <[next_page_id_ s := f]> (page_table_ s) ∧
  RecordAccess f (replacer_ s) = Ok (replacer_ s') ∧
  free_list_ s' = rest.
Proof.
  intros Hfree. unfold NewPage, AllocatePage. rewrite Hfree.
  bind_Ok rep E. bind_Ok pages1 E1. bind_Ok pages2 E2. bind_Ok pages3 E3.
  intros [= <- <-].
  cbn [next_page_id_ pages_ page_table_ disk_ replacer_ free_list_].
  apply update_page_lookup in E1 as (_ & Hl1 & _ & Ho1).
  pose proof E2 as (q & _ & Hq & _)%update_page_Ok.
  apply update_page_lookup in E2 as (H0 & Hl2 & Hf2 & Ho2).
  apply update_page_lookup in E3 as (_ & Hl3 & Hf3 & Ho3).
  split_and!; try done.
  - rewrite Hf3, Hf2, Hq. done.
  - congruence.
  - intros j Hj Hj'. by rewrite Ho3, Ho2, Ho1.
Qed.

(** What a [FetchPage] that misses and evicts leaves: the whole of the
    branch. *)
Lemma FetchPage_evict_inv s s' (page_id frame_id : Z) :
  page_table_ s !! page_id = None →
  free_list_ s = [] →
  FetchPage page_id s = Ok (Some frame_id, s') →
  ∃ victim rep,
    Evict (replacer_ s) = Ok (Some frame_id, rep) ∧
    pages_ s !! Z.to_nat frame_id = Some victim ∧
    0 ≤ frame_id ∧
    pages_ s' !! Z.to_nat frame_id
    = Some (fetched_frame page_id
              (ReadPage page_id (replicate PAGE_SIZE Byte.x00) (disk_ s')).1) ∧
    length (pages_ s') = length (pages_ s) ∧
    (∀ j, j ≠ Z.to_nat frame_id → pages_ s' !! j = pages_ s !! j) ∧
    disk_ s' = written_back victim (disk_ s) ∧
    page_table_ s' = <[page_id := frame_id]> (page_table_ s) ∧
    RecordAccess frame_id rep = Ok (replacer_ s') ∧
    free_list_ s' = [].
Proof.
  intros Hmiss Hfree. unfold FetchPage. rewrite Hmiss, Hfree.
  bind_Ok [victim rep] E. destruct victim as [v|]; [|done].
  bind_Ok page Ep. bind_Ok pages1 E1. bind_Ok page' Ep'. bind_Ok pages2 E2.
  bind_Ok rep1 E3. bind_Ok pages3 E4.
  intros [= <- <-]. cbn [pages_ page_table_ disk_ replacer_ free_list_].
  apply page_at_Ok in Ep as [_ Hp].
  apply page_at_Ok in Ep' as [_ Hp'].
  apply update_page_lookup in E1 as (H0 & Hl1 & Hf1 & Ho1).
  apply update_page_lookup in E2 as (_ & Hl2 & Hf2 & Ho2).
  apply update_page_lookup in E4 as (_ & Hl4 & Hf4 & Ho4).
  exists page, rep. split_and!; try done.
  - rewrite Hf4, Hf2, Hf1, Hp. cbn [fmap option_fmap option_map].
    by rewrite ReadPageFromDisk_page.
  - congruence.
  - intros j Hj. by rewrite Ho4, Ho2, Ho1.
  - unfold written_back. destruct (Page.is_dirty_ page); [|done].
    apply WritePageToDisk_disk.
  - rewrite Hf1, Hp in Hp'. injection Hp' as <-. cbn [ResetPage Page.page_id_ Page.set_pin_count
      Page.set_is_dirty Page.set_page_id].
    by rewrite delete_id.
Qed.

(** What a [FetchPage] that misses and finds a free frame leaves: the whole
    of the branch. *)
Lemma FetchPage_free_inv s s' (page_id frame_id f : Z) (rest : list Z) :
  page_table_ s !! page_id = None →
  free_list_ s = f :: rest →
  FetchPage page_id s = Ok (Some frame_id, s') →
  frame_id = f ∧
  0 ≤ f ∧
  pages_ s' !! Z.to_nat f
  = Some (fetched_frame page_id
            (ReadPage page_id (replicate PAGE_SIZE Byte.x00) (disk_ s')).1) ∧
  length (pages_ s') = length (pages_ s) ∧
  (∀ j, j ≠ Z.to_nat f → pages_ s' !! j = pages_ s !! j) ∧
  disk_ s' = disk_ s ∧
  page_table_ s' = <[page_id := f]> (page_table_ s) ∧
  RecordAccess f (replacer_ s) = Ok (replacer_ s') ∧
  free_list_ s' = rest.
Proof.
  intros Hmiss Hfree. unfold FetchPage. rewrite Hmiss, Hfree.
  bind_Ok rep E. bind_Ok pages1 E1. bind_Ok pages2 E2. bind_Ok pages3 E3.
  intros [= <- <-]. cbn [pages_ page_table_ disk_ replacer_ free_list_].
  pose proof E1 as (q & _ & Hq & _)%update_page_Ok.
  apply update_page_lookup in E1 as (H0 & Hl1 & Hf1 & Ho1).
  apply update_page_lookup in E2 as (_ & Hl2 & Hf2 & Ho2).
  apply update_page_lookup in E3 as (_ & Hl3 & Hf3 & Ho3).
  split_and!; try done.
  - rewrite Hf3, Hf2, Hf1, Hq. cbn [fmap option_fmap option_map].
    by rewrite ReadPageFromDisk_page.
  - congruence.
  - intros j Hj. by rewrite Ho3, Ho2, Ho1.
Qed.

(** Without free frame and without victim, [NewPage] gives up. *)
Lemma NewPage_no_victim s :
  free_list_ s = [] → Evict (replacer_ s) = Ok (None, replacer_ s) →
  NewPage s = Ok (None, s).
Proof.
  intros Hfree Hev. unfold NewPage. rewrite Hfree, Hev. cbn [mbind outcome_bind obind].
  destruct s as [n pages table free rep next disk]. cbn in *. by subst free.
Qed.

(** Without free frame and without victim, a [FetchPage] that misses gives
    up. *)
Lemma FetchPage_no_victim s (page_id : Z) :
  page_table_ s !! page_id = None →
  free_list_ s = [] → Evict (replacer_ s) = Ok (None, replacer_ s) →
  FetchPage page_id s = Ok (None, s).
Proof.
  intros Hmiss Hfree Hev. unfold FetchPage. rewrite Hmiss, Hfree, Hev.
  cbn [mbind outcome_bind obind].
  destruct s as [n pages table free rep next disk]. cbn in *. by subst free.
Qed.

(** [DeletePage] of a resident page whose frame is pinned. *)
Lemma DeletePage_pinned s (page_id f : Z) (page : Page) :
  page_table_ s !! page_id = Some f →
  page_at f (pages_ s) = Ok page →
  Page.pin_count_ page ≠ 0 →
  DeletePage page_id s = Ok (false, s).
Proof.
  intros Hf Hpage Hpin. unfold DeletePage. rewrite Hf, Hpage.
  cbn [mbind outcome_bind obind]. by destruct (Z.eqb_spec (Page.pin_count_ page) 0).
Qed.

(** [DeletePage] of a resident page whose frame is not pinned. *)
Lemma DeletePage_unpinned s (page_id f : Z) (page : Page) :
  page_table_ s !! page_id = Some f →
  page_at f (pages_ s) = Ok page →
  Page.pin_count_ page = 0 →
  DeletePage page_id s
  = (rep ← Remove f (replacer_ s);
     Ok (true, mkBPM (pool_size_ s) (<[Z.to_nat f := empty_Page]> (pages_ s))
                     (delete page_id (page_table_ s)) (free_list_ s ++ [f]) rep
                     (next_page_id_ s) (written_back page (disk_ s)))).
Proof.
  intros Hf Hpage Hpin. unfold DeletePage. rewrite Hf, Hpage.
  cbn [mbind outcome_bind obind]. rewrite Hpin. cbn [Z.eqb negb].
  unfold written_back. rewrite WritePageToDisk_disk. done.
Qed.

(** X13: when [NewPage] succeeds, the page id is the value of the counter,
    the counter has moved on by one, the frame returned is zeroed, carries the
    new page id, is pinned once and clean, and the page table maps the new
    page to it. *)
Theorem NewPage_success s s' (page_id frame_id : Z) :
  NewPage s = Ok (Some (page_id, frame_id), s') →
  page_id = next_page_id_ s ∧
  next_page_id_ s' = wrap_int32 (page_id + 1) ∧
  0 ≤ frame_id ∧
  pages_ s' !! Z.to_nat frame_id = Some (new_frame page_id) ∧
  page_table_ s' !! page_id = Some frame_id ∧
  length (pages_ s') = length (pages_ s).
Proof.
  intros E. destruct (free_list_ s) as [|g rest] eqn:Hfree.
  - destruct (NewPage_evict_inv s s' _ _ Hfree E)
      as (victim & rep & _ & _ & Hq & Hnext & H0 & Hframe & Hlen & _ & _ & Ht & _).
    split_and!; try done. rewrite Ht. apply lookup_insert_eq.
  - destruct (NewPage_free_inv s s' g rest _ Hfree E)
      as (Hres & Hnext & H0 & Hframe & Hlen & _ & _ & Ht & _).
    injection Hres as -> ->.
    split_and!; try done. rewrite Ht. apply lookup_insert_eq.
Qed.

(** X14: when [FetchPage] misses and succeeds, the frame returned holds what
    [ReadPage] delivers for the page into a zeroed buffer (from the disk as
    the call leaves it), carries the page id, is pinned once and clean, and
    the page table maps the page to it. *)
Theorem FetchPage_miss s s' (page_id frame_id : Z) :
  page_table_ s !! page_id = None →
  FetchPage page_id s = Ok (Some frame_id, s') →
  0 ≤ frame_id ∧
  pages_ s' !! Z.to_nat frame_id
  = Some (fetched_frame page_id
            (ReadPage page_id (replicate PAGE_SIZE Byte.x00) (disk_ s')).1) ∧
  page_table_ s' !! page_id = Some frame_id ∧
  length (pages_ s') = length (pages_ s).
Proof.
  intros Hmiss E. destruct (free_list_ s) as [|g rest] eqn:Hfree.
  - destruct (FetchPage_evict_inv s s' _ _ Hmiss Hfree E)
      as (victim & rep & _ & _ & H0 & Hframe & Hlen & _ & _ & Ht & _).
    split_and!; try done. rewrite Ht. apply lookup_insert_eq.
  - destruct (FetchPage_free_inv s s' _ _ g rest Hmiss Hfree E)
      as (-> & H0 & Hframe & Hlen & _ & _ & Ht & _).
    split_and!; try done. rewrite Ht. apply lookup_insert_eq.
Qed.

(** X15: with no free frame and no evictable frame (every resident frame
    pinned), [NewPage] returns [nullptr], and so does [FetchPage] for a page
    that is not resident; the pool is unchanged, in particular no page id is
    used up. *)
Theorem pool_exhausted s (page_id : Z) :
  free_list_ s = [] →
  Forall (λ n, is_evictable_ n = false) (node_list_ (replacer_ s)) →
  NewPage s = Ok (None, s) ∧
  (page_table_ s !! page_id = None → FetchPage page_id s = Ok (None, s)).
Proof.
  intros Hfree Hev. apply Evict_none in Hev. split.
  - by apply NewPage_no_victim.
  - intros Hmiss. by apply FetchPage_no_victim.
Qed.

(** X16: when [NewPage] finds no free frame and evicts, the frame is the
    replacer's victim; the victim's bytes are written to disk under its page
    id exactly if it is dirty; the page-table entry of the victim's page id is
    erased and the new page is entered; the other frames are untouched. *)
Theorem NewPage_eviction s s' (page_id frame_id : Z) :
  free_list_ s = [] →
  NewPage s = Ok (Some (page_id, frame_id), s') →
  ∃ victim rep,
    Evict (replacer_ s) = Ok (Some frame_id, rep) ∧
    pages_ s !! Z.to_nat frame_id = Some victim ∧
    disk_ s' = written_back victim (disk_ s) ∧
    page_table_ s' = <[page_id := frame_id]> (delete (Page.page_id_ victim) (page_table_ s)) ∧
    RecordAccess frame_id rep = Ok (replacer_ s') ∧
    free_list_ s' = [] ∧
    ∀ j, j ≠ Z.to_nat frame_id → pages_ s' !! j = pages_ s !! j.
Proof.
  intros Hfree E.
  destruct (NewPage_evict_inv s s' _ _ Hfree E)
    as (victim & rep & Hev & Hv & _ & _ & _ & _ & _ & Ho & Hd & Ht & Hrep & Hfl).
  by exists victim, rep.
Qed.

(** X17: when [FetchPage] misses, finds no free frame and evicts, the
    victim's bytes are written to disk under its page id exactly if it is
    dirty, before the page is read; the page table gains the entry of the
    fetched page and loses none: the entry of the victim's page stays. *)
Theorem FetchPage_eviction s s' (page_id frame_id : Z) :
  page_table_ s !! page_id = None →
  free_list_ s = [] →
  FetchPage page_id s = Ok (Some frame_id, s') →
  ∃ victim rep,
    Evict (replacer_ s) = Ok (Some frame_id, rep) ∧
    pages_ s !! Z.to_nat frame_id = Some victim ∧
    disk_ s' = written_back victim (disk_ s) ∧
    page_table_ s' = <[page_id := frame_id]> (page_table_ s) ∧
    RecordAccess frame_id rep = Ok (replacer_ s') ∧
    free_list_ s' = [] ∧
    ∀ j, j ≠ Z.to_nat frame_id → pages_ s' !! j = pages_ s !! j.
Proof.
  intros Hmiss Hfree E.
  destruct (FetchPage_evict_inv s s' _ _ Hmiss Hfree E)
    as (victim & rep & Hev & Hv & _ & _ & _ & Ho & Hd & Ht & Hrep & Hfl).
  by exists victim, rep.
Qed.

(** X18: [FlushPage] of a resident page (its frame being in the array)
    returns true after writing the frame's bytes to disk under the frame's
    page id, whether the frame is dirty or not; the dirty bit is cleared and
    nothing else changes, neither pin count nor replacer.  For a page that is
    not resident it returns false and changes nothing. *)
Theorem FlushPage_spec s (page_id : Z) :
  (∀ f, page_table_ s !! page_id = Some f → in_bounds f (pages_ s)) →
  ∃ (b : bool) s',
    FlushPage page_id s = Ok (b, s') ∧
    (b = true ↔ is_Some (page_table_ s !! page_id)) ∧
    (b = false → s' = s) ∧
    (b = true →
       ∃ f page, page_table_ s !! page_id = Some f ∧
                 pages_ s !! Z.to_nat f = Some page ∧
                 disk_ s' = (WritePage (Page.page_id_ page) (Page.data_ page) (disk_ s)).1 ∧
                 pages_ s' = <[Z.to_nat f := Page.set_is_dirty false page]> (pages_ s) ∧
                 replacer_ s' = replacer_ s ∧
                 page_table_ s' = page_table_ s ∧
                 free_list_ s' = free_list_ s ∧
                 next_page_id_ s' = next_page_id_ s).
Proof.
  intros Hb. unfold FlushPage. destruct (page_table_ s !! page_id) as [f|] eqn:Hf.
  - destruct (page_at_in_bounds f (pages_ s) (Hb f eq_refl)) as (page & -> & Hpage).
    cbn [mbind outcome_bind obind]. eexists true, _. split; [done|].
    split_and!; try done.
    intros _. exists f, page. cbn [pages_ page_table_ disk_ replacer_ free_list_ next_page_id_].
    split_and!; first [done | apply WritePageToDisk_disk].
  - exists false, s. split_and!; try done; try by intros [? [=]].
Qed.

(** X19: [DeletePage] of a resident page.  If the frame is pinned the call
    returns false and changes nothing.  If it is not pinned and the replacer
    lets the frame go, the call returns true: the frame's bytes are written to
    disk first if it is dirty, the page-table entry is erased, the frame is
    reset to an empty frame and appended at the back of the free list.  If the
    replacer's assertion fails, so does the call. *)
Theorem DeletePage_resident s (page_id f : Z) (page : Page) :
  page_table_ s !! page_id = Some f →
  0 ≤ f → pages_ s !! Z.to_nat f = Some page →
  (Page.pin_count_ page ≠ 0 → DeletePage page_id s = Ok (false, s)) ∧
  (Page.pin_count_ page = 0 →
   match Remove f (replacer_ s) with
   | Ok rep =>
       ∃ s', DeletePage page_id s = Ok (true, s') ∧
             page_table_ s' = delete page_id (page_table_ s) ∧
             pages_ s' = <[Z.to_nat f := empty_Page]> (pages_ s) ∧
             free_list_ s' = free_list_ s ++ [f] ∧
             replacer_ s' = rep ∧
             disk_ s' = written_back page (disk_ s) ∧
             next_page_id_ s' = next_page_id_ s
   | Aborted => DeletePage page_id s = Aborted
   | Undefined => DeletePage page_id s = Undefined
   end).
Proof.
  intros Hf H0 Hpage.
  assert (page_at f (pages_ s) = Ok page) as Hat by (by apply page_at_Ok).
  split; intros Hpin.
  - by eapply DeletePage_pinned.
  - rewrite (DeletePage_unpinned s page_id f page Hf Hat Hpin).
    destruct (Remove f (replacer_ s)) as [rep| |]; cbn [mbind outcome_bind obind]; try done.
    by eexists.
Qed.
End PoolMore.

Section PoolMemoryDisk.
Context {cfg : Config}.
Implicit Types s : BufferPoolManager MemoryDisk.

Lemma MemoryDisk_read (d : MemoryDisk) (p : Z) (buf : bytes) :
  (ReadPage p buf d).1 = default (replicate PAGE_SIZE Byte.x00) (d !! p).
Proof. done. Qed.

Lemma MemoryDisk_write (d : MemoryDisk) (p : Z) (buf : bytes) :
  (WritePage p buf d).1 = <[p := buf]> d.
Proof. done. Qed.

(** X20: over a block device that keeps what is written, [FlushPage] is
    idempotent: a second flush of the same page returns the same result and
    leaves the pool, disk included, as the first flush left it. *)
Theorem FlushPage_idempotent s s1 (page_id : Z) (b : bool) :
  FlushPage page_id s = Ok (b, s1) → FlushPage page_id s1 = Ok (b, s1).
Proof.
  unfold FlushPage at 1. destruct (page_table_ s !! page_id) as [f|] eqn:Hf.
  - bind_Ok page Ep. intros [= <- <-].
    apply page_at_Ok in Ep as [H0 Hp].
    unfold FlushPage. cbn [pages_ page_table_ disk_ replacer_ free_list_ next_page_id_ pool_size_].
    rewrite Hf.
    assert (page_at f (<[Z.to_nat f := Page.set_is_dirty false page]> (pages_ s))
            = Ok (Page.set_is_dirty false page)) as ->.
    { apply page_at_Ok. split; [done|]. apply list_lookup_insert_eq.
      by eapply lookup_lt_Some. }
    cbn [mbind outcome_bind obind]. rewrite list_insert_insert_eq.
    rewrite !WritePageToDisk_disk, !MemoryDisk_write.
    cbn [Page.set_is_dirty Page.page_id_ Page.data_ Page.pin_count_ Page.is_dirty_].
    unfold MemoryDisk in *. by rewrite insert_insert_eq.
  - intros [= <- <-]. unfold FlushPage. by rewrite Hf.
Qed.

(** X21: a dirty page survives [DeletePage], if its frame carries its
    page id: over a block device that keeps what is written, if page [p] is
    resident in a frame whose [page_id_] is [p] (the key of the page table and
    the id stored in the frame agree) and which is dirty, and [DeletePage(p)]
    returns true, then a following [FetchPage(p)] that succeeds returns a
    frame with the bytes the frame had.  Line 44 of [NewPage] can make the two
    ids differ; then the bytes go to disk under the other id
    ([stale_page_id_run]). *)
Theorem delete_then_fetch_round_trip s s1 s2 (f f' : Z) (page : Page) :
  page_table_ s !! Page.page_id_ page = Some f →
  0 ≤ f → pages_ s !! Z.to_nat f = Some page →
  Page.is_dirty_ page = true →
  DeletePage (Page.page_id_ page) s = Ok (true, s1) →
  FetchPage (Page.page_id_ page) s1 = Ok (Some f', s2) →
  pages_ s2 !! Z.to_nat f' = Some (fetched_frame (Page.page_id_ page) (Page.data_ page)).
Proof.
  intros Hf H0 Hp Hd Hdel Hfetch.
  assert (page_at f (pages_ s) = Ok page) as Hat by (by apply page_at_Ok).
  destruct (Z.eq_dec (Page.pin_count_ page) 0) as [Hz|Hnz].
  2:{ rewrite (DeletePage_pinned s _ f page Hf Hat Hnz) in Hdel. discriminate. }
  rewrite (DeletePage_unpinned s _ f page Hf Hat Hz) in Hdel.
  destruct (Remove f (replacer_ s)) as [rep| |]; [|discriminate..].
  injection Hdel as <-.
  destruct (free_list_ s ++ [f]) as [|g rest] eqn:Hfl.
  { by destruct (free_list_ s). }
  match type of Hfetch with FetchPage _ ?s1 = _ =>
    assert (page_table_ s1 !! Page.page_id_ page = None) as Hmiss
      by apply lookup_delete_eq;
    destruct (FetchPage_free_inv s1 s2 _ f' g rest Hmiss eq_refl Hfetch)
      as (-> & _ & -> & _ & _ & Hd2 & _)
  end.
  f_equal. f_equal. rewrite MemoryDisk_read, Hd2. cbn [disk_].
  unfold written_back. rewrite Hd, MemoryDisk_write.
  unfold MemoryDisk. by rewrite lookup_insert_eq.
Qed.

(** X22: a dirty page survives its eviction by [NewPage], if the new page
    gets another id: over a block device that keeps what is written, if
    [NewPage] evicts a dirty frame, the page id it hands out is not the page
    id of the victim, and no other dirty frame carries the victim's page id,
    then a following [FetchPage] of the victim's page that succeeds returns a
    frame with the bytes the victim had.  A page brought in by [FetchPage] can
    have the id that [NewPage] hands out next; then the fetch hits the new,
    zeroed frame ([reused_page_id_run]). *)
Theorem evict_then_fetch_round_trip s s1 s2 (q f f' : Z) (victim : Page) :
  free_list_ s = [] →
  pages_ s !! Z.to_nat f = Some victim →
  Page.is_dirty_ victim = true →
  (∀ j pg, j ≠ Z.to_nat f → pages_ s !! j = Some pg →
           Page.is_dirty_ pg = true → Page.page_id_ pg ≠ Page.page_id_ victim) →
  NewPage s = Ok (Some (q, f), s1) →
  q ≠ Page.page_id_ victim →
  FetchPage (Page.page_id_ victim) s1 = Ok (Some f', s2) →
  pages_ s2 !! Z.to_nat f'
  = Some (fetched_frame (Page.page_id_ victim) (Page.data_ victim)).
Proof.
  intros Hfree Hv Hd Hothers Hnew Hq Hfetch.
  destruct (NewPage_evict_inv s s1 q f Hfree Hnew)
    as (victim' & rep & _ & Hv' & _ & _ & H0 & Hnewf & _ & Hrest & Hdisk & Ht & _ & Hfree1).
  rewrite Hv in Hv'. injection Hv' as <-.
  assert (page_table_ s1 !! Page.page_id_ victim = None) as Hmiss.
  { rewrite Ht, lookup_insert_ne by done. apply lookup_delete_eq. }
  destruct (FetchPage_evict_inv s1 s2 _ f' Hmiss Hfree1 Hfetch)
    as (victim2 & rep2 & _ & Hv2 & H0' & -> & _ & _ & Hdisk2 & _).
  f_equal. f_equal. rewrite MemoryDisk_read, Hdisk2, Hdisk.
  unfold written_back at 2. rewrite Hd, MemoryDisk_write.
  assert (written_back victim2 (<[Page.page_id_ victim := Page.data_ victim]> (disk_ s))
            !! Page.page_id_ victim = Some (Page.data_ victim)) as ->; [|done].
  unfold written_back. destruct (Page.is_dirty_ victim2) eqn:Hd2.
  - rewrite MemoryDisk_write. unfold MemoryDisk.
    rewrite lookup_insert_ne; [by rewrite lookup_insert_eq|].
    destruct (decide (Z.to_nat f' = Z.to_nat f)) as [Heq|Hne].
    + rewrite Heq, Hnewf in Hv2. injection Hv2 as <-. discriminate.
    + rewrite Hrest in Hv2 by done. by eapply Hothers.
  - unfold MemoryDisk. by rewrite lookup_insert_eq.
Qed.
End PoolMemoryDisk.

(** * Memory safety of the buffer pool manager *)

Section Tracking.
Context (B : Z → Prop).

Lemma tracking_ok_iterators_valid (r : LRUKReplacer) :
  tracking_ok B r → iterators_valid r.
Proof.
  intros (_ & Hst & _) f Hf. apply Hst in Hf.
  apply list_elem_of_fmap in Hf as (n & -> & Hn). by exists n.
Qed.

Lemma tracking_ok_erase (r : LRUKReplacer) (pre post : list LRUKNode) (x : LRUKNode) (size : Z) :
  tracking_ok B r → node_list_ r = pre ++ x :: post →
  B (fid_ x) ∧
  tracking_ok B (mkReplacer (pre ++ post) (node_store_ r ∖ {[fid_ x]})
                            (current_timestamp_ r) size (replacer_size_ r) (k_ r)).
Proof.
  intros (Hnd & Hst & HB & Hcap) El. rewrite El in *.
  assert (pre ++ x :: post ≡ₚ x :: (pre ++ post)) as Hperm
    by (by rewrite Permutation_middle).
  rewrite Hperm in Hnd, HB. rewrite fmap_cons in Hnd.
  apply Forall_cons_1 in HB as [Hx HB]. split; [done|].
  unfold tracking_ok. replacer_fields. split_and!; try done.
  - by apply NoDup_cons_1_2 in Hnd.
  - intros f. rewrite elem_of_difference, Hst, not_elem_of_singleton.
    apply NoDup_cons_1_1 in Hnd.
    rewrite Hperm, fmap_cons, elem_of_cons. split.
    + by intros [[?|?] ?].
    + intros Hf. split; [by right|]. by intros ->.
Qed.

Lemma Evict_tracking (r : LRUKReplacer) :
  tracking_ok B r →
  ∃ res r', Evict r = Ok (res, r') ∧ tracking_ok B r' ∧
            match res with Some f => B f | None => r' = r end.
Proof.
  intros Hok. unfold Evict.
  destruct (split_first is_evictable_ (node_list_ r)) as [[[pre v] post]|] eqn:E;
    [|by eauto].
  apply split_first_Some in E as (El & _ & _).
  destruct (tracking_ok_erase r pre post v (size_dec (curr_size_ r)) Hok El) as [Hv Hok'].
  rewrite decide_True.
  - by eexists _, _.
  - apply Hok. rewrite El, fmap_app, fmap_cons, elem_of_app, elem_of_cons. auto.
Qed.

Lemma RecordAccess_tracking (r : LRUKReplacer) (f : Z) :
  tracking_ok B r → B f →
  ∃ r', RecordAccess f r = Ok r' ∧ tracking_ok B r'.
Proof.
  intros Hok Hf. pose proof Hok as (Hnd & Hst & HB & Hcap).
  assert (∀ nodes new rest,
    nodes ≡ₚ new :: rest → fid_ new = f →
    NoDup (fid_ <$> rest) → f ∉ fid_ <$> rest → Forall (λ n, B (fid_ n)) rest →
    (∀ g, g ∈ node_store_ r → g = f ∨ g ∈ fid_ <$> rest) →
    (∀ g, g ∈ fid_ <$> rest → g ∈ node_store_ r) →
    ∃ r', (let r1 := mkReplacer nodes ({[f]} ∪ node_store_ r)
                       (size_inc (current_timestamp_ r)) (curr_size_ r)
                       (replacer_size_ r) (k_ r) in
           if replacer_size_ r <? Z.of_nat (length nodes)
           then '(_, r2) ← Evict_locking true r1; Ok r2 else Ok r1) = Ok r'
          ∧ tracking_ok B r')
    as Hfinish.
  { intros nodes new rest Hperm Hfid Hndr Hfr HBr Hs1 Hs2. cbn zeta.
    assert (tracking_ok B (mkReplacer nodes ({[f]} ∪ node_store_ r)
                       (size_inc (current_timestamp_ r)) (curr_size_ r)
                       (replacer_size_ r) (k_ r))) as Hr1.
    { unfold tracking_ok. replacer_fields. split_and!.
      - rewrite Hperm, fmap_cons, Hfid. by constructor.
      - intros g. rewrite Hperm, fmap_cons, Hfid.
        rewrite elem_of_union, elem_of_singleton, elem_of_cons.
        split; [intros [?|?%Hs1]; tauto | intros [?|?%Hs2]; tauto].
      - rewrite Hperm. constructor; [by rewrite Hfid|done].
      - done. }
    assert (Z.of_nat (length nodes) ≤ replacer_size_ r) as Hroom.
    { destruct Hr1 as (Hnd1 & _ & HB1 & _). replacer_fields.
      rewrite <-(length_fmap fid_). apply Hcap; [done|]. by apply Forall_fmap. }
    destruct (Z.ltb_spec (replacer_size_ r) (Z.of_nat (length nodes))); [lia|]. eauto. }
  unfold RecordAccess. case_decide as Hin.
  - destruct (deref_valid r f (tracking_ok_iterators_valid r Hok) Hin)
      as (pre & old & post & -> & El & Hfid & _).
    cbn [mbind outcome_bind obind]. rewrite El in *.
    assert (pre ++ old :: post ≡ₚ old :: (pre ++ post)) as Hperm
      by (by rewrite Permutation_middle).
    rewrite Hperm in Hnd, HB. rewrite fmap_cons in Hnd.
    apply Forall_cons_1 in HB as [_ HB].
    apply (Hfinish _ (PushHistory (current_timestamp_ r) old) (pre ++ post)).
    + by rewrite reinsert_Permutation, Permutation_middle.
    + done.
    + by apply NoDup_cons_1_2 in Hnd.
    + rewrite <-Hfid. by apply NoDup_cons_1_1 in Hnd.
    + done.
    + intros g Hg%Hst. rewrite Hperm, fmap_cons, elem_of_cons in Hg.
      rewrite <-Hfid. tauto.
    + intros g Hg. apply Hst. rewrite Hperm, fmap_cons, elem_of_cons. tauto.
  - cbn [mbind outcome_bind obind].
    apply (Hfinish _ (PushHistory (current_timestamp_ r) (new_LRUKNode f (k_ r)))
                   (node_list_ r)).
    + apply Insert_Permutation.
    + done.
    + done.
    + by rewrite <-Hst.
    + done.
    + intros g Hg%Hst. tauto.
    + intros g Hg. by apply Hst.
Qed.

Lemma SetEvictable_tracking (r : LRUKReplacer) (f : Z) (b : bool) :
  tracking_ok B r → ∃ r', SetEvictable f b r = Ok r' ∧ tracking_ok B r'.
Proof.
  intros Hok. pose proof Hok as (Hnd & Hst & HB & Hcap).
  unfold SetEvictable. case_decide as Hf; [|by eauto].
  destruct (deref_valid r f (tracking_ok_iterators_valid r Hok) Hf)
    as (pre & n & post & -> & El & Hfid & _).
  cbn [mbind outcome_bind obind]. eexists. split; [done|].
  rewrite El in *. unfold tracking_ok. replacer_fields. split_and!.
  - by rewrite fmap_app, fmap_cons in *.
  - intros g. by rewrite Hst, !fmap_app, !fmap_cons.
  - rewrite Forall_app, Forall_cons in *. tauto.
  - done.
Qed.

Lemma Remove_tracking (r : LRUKReplacer) (f : Z) :
  tracking_ok B r →
  Remove f r ≠ Undefined ∧ ∀ r', Remove f r = Ok r' → tracking_ok B r'.
Proof.
  intros Hok. unfold Remove. case_decide as Hf.
  - destruct (deref_valid r f (tracking_ok_iterators_valid r Hok) Hf)
      as (pre & n & post & -> & El & Hfid & _).
    cbn [mbind outcome_bind obind]. destruct (is_evictable_ n); [|done].
    split; [done|]. intros r' [= <-]. rewrite <-Hfid.
    by apply tracking_ok_erase.
  - split; [done|]. by intros r' [= <-].
Qed.

Lemma tracking_ok_new (num_frames k : Z) :
  (∀ l : list Z, NoDup l → Forall B l → Z.of_nat (length l) ≤ num_frames) →
  tracking_ok B (new_LRUKReplacer num_frames k).
Proof.
  intros Hcap. unfold tracking_ok. cbn. split_and!.
  - constructor.
  - intros f. split; [by intros ?%not_elem_of_empty | by intros ?%elem_of_nil].
  - constructor.
  - done.
Qed.
End Tracking.

Lemma tracking_ok_ext (B1 B2 : Z → Prop) (r : LRUKReplacer) :
  (∀ f, B1 f ↔ B2 f) → tracking_ok B1 r → tracking_ok B2 r.
Proof.
  intros HB (? & ? & H & Hcap). split_and!; try done.
  - eapply Forall_impl; [exact H|]. intros n. apply HB.
  - intros l Hnd Hl. apply Hcap; [done|].
    eapply Forall_impl; [exact Hl|]. intros f. apply HB.
Qed.

(** A frame array has room for no more frame ids than it has frames. *)
Lemma in_bounds_capacity (pages : list Page) (l : list Z) :
  NoDup l → Forall (λ f, in_bounds f pages) l →
  Z.of_nat (length l) ≤ Z.of_nat (length pages).
Proof.
  intros Hnd Hl.
  assert (l ⊆+ seqZ 0 (Z.of_nat (length pages))) as Hsub.
  { apply NoDup_submseteq; [done|]. intros f Hf.
    rewrite Forall_forall in Hl. specialize (Hl f Hf).
    apply elem_of_seqZ. unfold in_bounds in Hl. lia. }
  apply submseteq_length in Hsub. rewrite length_seqZ in Hsub. lia.
Qed.

Lemma wrap_int32_small (x : Z) : - 2 ^ 31 ≤ x < 2 ^ 31 → wrap_int32 x = x.
Proof. intros. unfold wrap_int32. rewrite Z.mod_small; lia. Qed.

Lemma update_page_in_bounds (i : Z) (g : Page → Page) (l : list Page) :
  in_bounds i l → ∃ l', update_page i g l = Ok l' ∧ length l' = length l.
Proof.
  intros (p & Hp & Hl)%page_at_in_bounds. unfold update_page. rewrite Hp.
  cbn [mbind outcome_bind obind]. eexists. split; [done|]. apply length_insert.
Qed.

Lemma update_page_out_of_bounds (i : Z) (g : Page → Page) (l : list Page) :
  ¬ in_bounds i l → update_page i g l = Undefined.
Proof.
  intros H%page_at_Undefined. unfold update_page. by rewrite H.
Qed.

Lemma in_bounds_length (i : Z) (l l' : list Page) :
  length l' = length l → in_bounds i l → in_bounds i l'.
Proof. unfold in_bounds. intros ->. done. Qed.

Section PoolSafety.
Context {cfg : Config} {D : Type} {dm : DiskManager D}.
Implicit Types s : BufferPoolManager D.

Lemma pool_ok_intro s (n' next' : Z) (pages' : list Page) (table' : gmap Z Z)
    (free' : list Z) (rep' : LRUKReplacer) (disk' : D) :
  pool_ok s → n' = pool_size_ s →
  length pages' = length (pages_ s) →
  Forall (λ f, in_bounds f (pages_ s)) free' →
  map_Forall (λ _ f, in_bounds f (pages_ s)) table' →
  tracking_ok (λ f, in_bounds f (pages_ s)) rep' →
  pool_ok (mkBPM n' pages' table' free' rep' next' disk').
Proof.
  intros (Hsize & _) -> Hl Hfree Htable Hrep. unfold pool_ok.
  cbn [pages_ page_table_ free_list_ replacer_ pool_size_].
  split_and!.
  - congruence.
  - eapply Forall_impl; [exact Hfree|]. intros f. by apply in_bounds_length.
  - eapply map_Forall_impl; [exact Htable|]. intros p f. by apply in_bounds_length.
  - eapply tracking_ok_ext; [|exact Hrep]. intros f. unfold in_bounds. by rewrite Hl.
Qed.

Lemma pool_ok_new (pool_size : nat) (disk : D) (replacer_k : Z) :
  Z.of_nat pool_size < 2 ^ 31 →
  pool_ok (new_BufferPoolManager pool_size disk replacer_k).
Proof.
  intros Hsmall. unfold pool_ok, new_BufferPoolManager.
  cbn [pages_ page_table_ free_list_ replacer_ pool_size_].
  split_and!.
  - by rewrite length_replicate.
  - apply Forall_fmap, Forall_forall. intros i Hi%elem_of_seq.
    unfold in_bounds. cbn. rewrite length_replicate, wrap_int32_small; lia.
  - apply map_Forall_empty.
  - apply tracking_ok_new. intros l Hnd Hl.
    pose proof (in_bounds_capacity _ l Hnd Hl) as Hcap.
    by rewrite length_replicate in Hcap.
Qed.

Lemma NewPage_safe s :
  pool_ok s →
  (NewPage s = Undefined ↔
   free_list_ s ≠ [] ∧ ¬ in_bounds (next_page_id_ s) (pages_ s)) ∧
  NewPage s ≠ Aborted ∧
  ∀ res s', NewPage s = Ok (res, s') → pool_ok s'.
Proof.
  intros Hok. pose proof Hok as (Hsize & Hfree & Htable & Hrep). unfold NewPage, AllocatePage.
  destruct (free_list_ s) as [|f rest] eqn:Efree.
  - destruct (Evict_tracking _ _ Hrep) as (res & rep & -> & Hrep1 & Hres).
    cbn [mbind outcome_bind obind]. destruct res as [v|].
    + destruct (page_at_in_bounds v (pages_ s) Hres) as (page & -> & _).
      cbn [mbind outcome_bind obind].
      destruct (update_page_in_bounds v (ResetPage (next_page_id_ s)) _ Hres)
        as (pages1 & -> & Hl1). cbn [mbind outcome_bind obind].
      destruct (update_page_in_bounds v (Page.set_pin_count 1) pages1) as (pages2 & -> & Hl2).
      { by eapply in_bounds_length. }
      cbn [mbind outcome_bind obind].
      destruct (RecordAccess_tracking _ rep v Hrep1 Hres) as (rep1 & -> & Hrep2).
      cbn [mbind outcome_bind obind]. split_and!; try done.
      { split; [done|]. by intros [? _]. }
      intros res s' [= <- <-]. apply (pool_ok_intro s); try done.
      * congruence.
      * apply map_Forall_insert_2; [done|]. by apply map_Forall_delete.
    + split_and!; try done.
      { split; [done|]. by intros [? _]. }
      intros res s' [= <- <-]. subst rep. by apply (pool_ok_intro s).
  - apply Forall_cons_1 in Hfree as [Hf Hrest].
    destruct (RecordAccess_tracking _ _ f Hrep Hf) as (rep & -> & Hrep1).
    cbn [mbind outcome_bind obind].
    destruct (decide (in_bounds (next_page_id_ s) (pages_ s))) as [Hin|Hout].
    + destruct (update_page_in_bounds _ (Page.set_page_id (next_page_id_ s)) _ Hin)
        as (pages1 & -> & Hl1). cbn [mbind outcome_bind obind].
      destruct (update_page_in_bounds f (ResetPage (next_page_id_ s)) pages1)
        as (pages2 & -> & Hl2).
      { by eapply in_bounds_length. }
      cbn [mbind outcome_bind obind].
      destruct (update_page_in_bounds f (Page.set_pin_count 1) pages2) as (pages3 & -> & Hl3).
      { eapply in_bounds_length; [|exact Hf]. congruence. }
      cbn [mbind outcome_bind obind]. split_and!; try done.
      { split; [done|]. by intros [_ ?]. }
      intros res s' [= <- <-]. apply (pool_ok_intro s); try done.
      * congruence.
      * by apply map_Forall_insert_2.
    + rewrite (update_page_out_of_bounds _ _ _ Hout). cbn [mbind outcome_bind obind].
      split_and!; try done.
Qed.

Lemma FetchPage_safe s (page_id : Z) :
  pool_ok s →
  FetchPage page_id s ≠ Undefined ∧ FetchPage page_id s ≠ Aborted ∧
  ∀ res s', FetchPage page_id s = Ok (res, s') → pool_ok s'.
Proof.
  intros Hok. pose proof Hok as (Hsize & Hfree & Htable & Hrep). unfold FetchPage.
  destruct (page_table_ s !! page_id) as [f0|] eqn:Et.
  { pose proof (Htable _ _ Et) as Hf0.
    destruct (RecordAccess_tracking _ _ f0 Hrep Hf0) as (rep & -> & Hrep1).
    cbn [mbind outcome_bind obind]. split_and!; try done.
    intros res s' [= <- <-]. by apply (pool_ok_intro s). }
  destruct (free_list_ s) as [|f rest] eqn:Efree.
  - destruct (Evict_tracking _ _ Hrep) as (res & rep & -> & Hrep1 & Hres).
    cbn [mbind outcome_bind obind]. destruct res as [v|].
    + destruct (page_at_in_bounds v (pages_ s) Hres) as (page & -> & _).
      cbn [mbind outcome_bind obind].
      destruct (update_page_in_bounds v (ResetPage page_id) _ Hres)
        as (pages1 & -> & Hl1). cbn [mbind outcome_bind obind].
      destruct (page_at_in_bounds v pages1) as (page' & -> & _).
      { by eapply in_bounds_length. }
      cbn [mbind outcome_bind obind].
      destruct (update_page_in_bounds v (Page.set_pin_count 1) pages1) as (pages2 & -> & Hl2).
      { by eapply in_bounds_length. }
      cbn [mbind outcome_bind obind].
      destruct (RecordAccess_tracking _ rep v Hrep1 Hres) as (rep1 & -> & Hrep2).
      cbn [mbind outcome_bind obind].
      match goal with
      | |- context [update_page v ?g pages2] =>
          destruct (update_page_in_bounds v g pages2) as (pages3 & -> & Hl3)
      end.
      { eapply in_bounds_length; [|exact Hres]. congruence. }
      cbn [mbind outcome_bind obind]. split_and!; try done.
      intros res s' [= <- <-]. apply (pool_ok_intro s); try done.
      * congruence.
      * apply map_Forall_insert_2; [done|]. by apply map_Forall_delete.
    + split_and!; try done.
      intros res s' [= <- <-]. subst rep. by apply (pool_ok_intro s).
  - apply Forall_cons_1 in Hfree as [Hf Hrest].
    destruct (RecordAccess_tracking _ _ f Hrep Hf) as (rep & -> & Hrep1).
    cbn [mbind outcome_bind obind].
    destruct (update_page_in_bounds f (ResetPage page_id) _ Hf)
      as (pages1 & -> & Hl1). cbn [mbind outcome_bind obind].
    destruct (update_page_in_bounds f (Page.set_pin_count 1) pages1) as (pages2 & -> & Hl2).
    { by eapply in_bounds_length. }
    cbn [mbind outcome_bind obind].
    match goal with
    | |- context [update_page f ?g pages2] =>
        destruct (update_page_in_bounds f g pages2) as (pages3 & -> & Hl3)
    end.
    { eapply in_bounds_length; [|exact Hf]. congruence. }
    cbn [mbind outcome_bind obind]. split_and!; try done.
    intros res s' [= <- <-]. apply (pool_ok_intro s); try done.
    + congruence.
    + by apply map_Forall_insert_2.
Qed.

Lemma UnpinPage_safe s (page_id : Z) (is_dirty : bool) :
  pool_ok s →
  UnpinPage page_id is_dirty s ≠ Undefined ∧ UnpinPage page_id is_dirty s ≠ Aborted ∧
  ∀ res s', UnpinPage page_id is_dirty s = Ok (res, s') → pool_ok s'.
Proof.
  intros Hok. pose proof Hok as (Hsize & Hfree & Htable & Hrep). unfold UnpinPage.
  destruct (page_table_ s !! page_id) as [f|] eqn:Et.
  2:{ split_and!; try done. by intros res s' [= <- <-]. }
  pose proof (Htable _ _ Et) as Hf.
  destruct (page_at_in_bounds f (pages_ s) Hf) as (page & -> & _).
  cbn [mbind outcome_bind obind]. destruct (_ =? 0).
  { split_and!; try done. by intros res s' [= <- <-]. }
  assert (∃ rep, (if Page.pin_count_
                       (Page.set_pin_count
                          (Page.pin_count_
                             (if is_dirty then Page.set_is_dirty true page else page) - 1)
                          (if is_dirty then Page.set_is_dirty true page else page)) =? 0
                  then SetEvictable f true (replacer_ s) else Ok (replacer_ s)) = Ok rep ∧
                 tracking_ok (λ f, in_bounds f (pages_ s)) rep) as (rep & -> & Hrep1).
  { destruct (_ =? 0); [|by eauto]. by apply SetEvictable_tracking. }
  cbn [mbind outcome_bind obind]. split_and!; try done.
  intros res s' [= <- <-]. apply (pool_ok_intro s); try done. apply length_insert.
Qed.

Lemma FlushPage_safe s (page_id : Z) :
  pool_ok s →
  FlushPage page_id s ≠ Undefined ∧ FlushPage page_id s ≠ Aborted ∧
  ∀ res s', FlushPage page_id s = Ok (res, s') → pool_ok s'.
Proof.
  intros Hok. pose proof Hok as (Hsize & Hfree & Htable & Hrep). unfold FlushPage.
  destruct (page_table_ s !! page_id) as [f|] eqn:Et.
  2:{ split_and!; try done. by intros res s' [= <- <-]. }
  pose proof (Htable _ _ Et) as Hf.
  destruct (page_at_in_bounds f (pages_ s) Hf) as (page & -> & _).
  cbn [mbind outcome_bind obind]. split_and!; try done.
  intros res s' [= <- <-]. apply (pool_ok_intro s); try done. apply length_insert.
Qed.

Lemma DeletePage_safe s (page_id : Z) :
  pool_ok s →
  DeletePage page_id s ≠ Undefined ∧
  ∀ res s', DeletePage page_id s = Ok (res, s') → pool_ok s'.
Proof.
  intros Hok. pose proof Hok as (Hsize & Hfree & Htable & Hrep). unfold DeletePage.
  destruct (page_table_ s !! page_id) as [f|] eqn:Et.
  2:{ split_and!; try done. by intros res s' [= <- <-]. }
  pose proof (Htable _ _ Et) as Hf.
  destruct (page_at_in_bounds f (pages_ s) Hf) as (page & -> & _).
  cbn [mbind outcome_bind obind]. destruct (negb _).
  { split_and!; try done. by intros res s' [= <- <-]. }
  destruct (Remove_tracking _ (replacer_ s) f Hrep) as [Hdef Hrep1].
  destruct (Remove f (replacer_ s)) as [rep| |]; cbn [mbind outcome_bind obind]; try done.
  split; [done|]. intros res s' [= <- <-]. apply (pool_ok_intro s); [done|done|..].
  - apply length_insert.
  - apply Forall_app. split; [done|]. by constructor.
  - by apply map_Forall_delete.
  - by apply Hrep1.
Qed.

Lemma write_frame_safe s s' (frame_id : Z) (b : bytes) :
  pool_ok s → write_frame frame_id b s = Ok s' → pool_ok s'.
Proof.
  intros Hok. pose proof Hok as (Hsize & Hfree & Htable & Hrep). unfold write_frame.
  bind_Ok pages1 E. intros [= <-].
  apply update_page_lookup in E as (_ & Hl & _). by apply (pool_ok_intro s).
Qed.

Lemma pool_reachable_ok s : pool_reachable s → pool_ok s.
Proof.
  induction 1 as [n disk k Hn|s res s' _ IH E|s p res s' _ IH E|s p d res s' _ IH E
                  |s p res s' _ IH E|s p res s' _ IH E|s f b s' _ IH E].
  - by apply pool_ok_new.
  - by eapply NewPage_safe.
  - by eapply FetchPage_safe.
  - by eapply UnpinPage_safe.
  - by eapply FlushPage_safe.
  - by eapply DeletePage_safe.
  - by eapply write_frame_safe.
Qed.

(** X23: in every state of a pool, [FetchPage], [UnpinPage], [FlushPage]
    and [DeletePage] stay clear of undefined behaviour: every index into the
    frame array is a frame of the array and every replacer iterator is valid.
    [NewPage] has undefined behaviour in exactly one case: a frame is free and
    the page id about to be allocated is not an index of the frame array (the
    write of line 44). *)
Theorem pool_memory_safety s (page_id : Z) (is_dirty : bool) :
  pool_reachable s →
  FetchPage page_id s ≠ Undefined ∧
  UnpinPage page_id is_dirty s ≠ Undefined ∧
  FlushPage page_id s ≠ Undefined ∧
  DeletePage page_id s ≠ Undefined ∧
  (NewPage s = Undefined ↔
   free_list_ s ≠ [] ∧ ¬ in_bounds (next_page_id_ s) (pages_ s)).
Proof.
  intros Hok%pool_reachable_ok. split_and!.
  - by apply FetchPage_safe.
  - by apply UnpinPage_safe.
  - by apply FlushPage_safe.
  - by apply DeletePage_safe.
  - by apply NewPage_safe.
Qed.

(** X24: in every state of a pool the frame array has [pool_size_] frames,
    and every frame id in the free list, in the page table and in the replacer
    is an index of it. *)
Theorem pool_frame_ids_in_bounds s :
  pool_reachable s →
  Z.of_nat (length (pages_ s)) = pool_size_ s ∧
  Forall (λ f, in_bounds f (pages_ s)) (free_list_ s) ∧
  (∀ p f, page_table_ s !! p = Some f → in_bounds f (pages_ s)) ∧
  Forall (λ n, in_bounds (fid_ n) (pages_ s)) (node_list_ (replacer_ s)).
Proof.
  intros (Hsize & Hfree & Htable & _ & _ & Hrep & _)%pool_reachable_ok. done.
Qed.
End PoolSafety.

(** * Pins and the replacer *)







Section PoolPins.
Context {cfg : Config} {D : Type} {dm : DiskManager D}.
Implicit Types s : BufferPoolManager D.














End PoolPins.

Section PoolFill.
Context {cfg : Config} {D : Type} {dm : DiskManager D}.
Implicit Types s : BufferPoolManager D.

Lemma filled_new (n : nat) (disk : D) (k : Z) :
  Z.of_nat n < 2 ^ 31 →
  filled n 0 (new_BufferPoolManager n disk k).
Proof.
  intros Hn. unfold filled. split_and!.
  - by apply pool_ok_new.
  - cbn. apply length_replicate.
  - cbn. rewrite Nat.sub_0_r. apply list_fmap_ext.
    intros j i Hi%lookup_seq. apply wrap_int32_small. lia.
  - done.
  - intros j Hj. lia.
  - intros p. cbn. by rewrite lookup_empty.
  - intros f. cbn. by intros ?%not_elem_of_empty.
  - cbn. constructor.
Qed.

Lemma filled_step (n i : nat) s :
  Z.of_nat n < 2 ^ 31 → (i < n)%nat → filled n i s →
  ∃ s', NewPage s = Ok (Some (Z.of_nat i, Z.of_nat i), s') ∧ filled n (S i) s'.
Proof.
  intros Hn Hi (Hok & Hlen & Hfree & Hnext & Hpages & Htable & Hstore & Hev).
  assert (free_list_ s = Z.of_nat i :: (Z.of_nat <$> seq (S i) (n - S i))) as Hfree'.
  { rewrite Hfree. replace (n - i)%nat with (S (n - S i)) by lia. done. }
  assert (in_bounds (next_page_id_ s) (pages_ s)) as Hin.
  { unfold in_bounds. rewrite Hnext, Hlen. lia. }
  destruct (NewPage_safe s Hok) as (Hundef & Habort & Hok').
  destruct (NewPage s) as [[res s']| |] eqn:E.
  2:{ destruct Hundef as [Hu _]. destruct (Hu eq_refl) as [_ ?]. done. }
  2:{ done. }
  destruct (NewPage_free_inv s s' _ _ res Hfree' E)
    as (-> & Hnext1 & _ & Hframe & Hlen1 & Hother & _ & Htable1 & Hrep & Hfree1).
  rewrite Hnext in *. rewrite Nat2Z.id in *.
  exists s'. split; [done|].
  assert (Z.of_nat i ∉ node_store_ (replacer_ s)) as Hfresh.
  { intros ?%Hstore. lia. }
  assert (Z.of_nat (length (node_list_ (replacer_ s))) < replacer_size_ (replacer_ s))
    as Hroom.
  { destruct Hok as (_ & _ & _ & Hnd & Hst & HB & Hcap).
    specialize (Hcap (Z.of_nat i :: (fid_ <$> node_list_ (replacer_ s)))).
    cbn [length] in Hcap. rewrite length_fmap in Hcap.
    assert (Z.of_nat (S (length (node_list_ (replacer_ s)))) ≤ replacer_size_ (replacer_ s));
      [|lia].
    apply Hcap.
    - constructor; [by rewrite <-Hst | done].
    - constructor; [unfold in_bounds; lia | by apply Forall_fmap]. }
  destruct (replacer_ s) as [l st ts cs size k] eqn:Er. replacer_fields.
  rewrite RecordAccess_untracked in Hrep by done.
  injection Hrep as Hrep.
  unfold filled. split_and!.
  - by eapply Hok'.
  - congruence.
  - done.
  - rewrite Hnext1. rewrite wrap_int32_small; lia.
  - intros j Hj. rewrite Htable1. destruct (decide (j = i)) as [->|Hne].
    + split; [done|]. apply lookup_insert_eq.
    + rewrite Hother by lia. rewrite lookup_insert_ne by lia. apply Hpages. lia.
  - intros p. rewrite Htable1. destruct (decide (p = Z.of_nat i)) as [->|Hne]; [lia|].
    rewrite lookup_insert_ne by done. intros ?%Htable. lia.
  - intros f. rewrite <-Hrep. replacer_fields.
    rewrite elem_of_union, elem_of_singleton. intros [->|?%Hstore]; lia.
  - rewrite <-Hrep. replacer_fields. rewrite Insert_Permutation. by constructor.
Qed.

Lemma filled_steps (n i m : nat) s :
  Z.of_nat n < 2 ^ 31 → (i + m ≤ n)%nat → filled n i s →
  ∃ s', NewPage_times m s
        = Ok ((λ j, Some (Z.of_nat j, Z.of_nat j)) <$> seq i m, s') ∧
        filled n (i + m) s'.
Proof.
  intros Hn. revert i s. induction m as [|m IH]; intros i s Him Hs.
  - exists s. split; [done|]. by rewrite Nat.add_0_r.
  - destruct (filled_step n i s Hn ltac:(lia) Hs) as (s1 & E1 & Hs1).
    destruct (IH (S i) s1 ltac:(lia) Hs1) as (s2 & E2 & Hs2).
    exists s2. cbn [NewPage_times]. rewrite E1. cbn [mbind outcome_bind obind].
    rewrite E2. cbn [mbind outcome_bind obind]. split; [done|].
    by replace (i + S m)%nat with (S i + m)%nat by lia.
Qed.

(** X25: a fresh pool of [n] frames (fewer than 2^31) takes exactly [n]
    pages: the first [n] calls of [NewPage] return pages [0 .. n-1] in frames
    [0 .. n-1]; as none of them is unpinned, every further [NewPage] and every
    [FetchPage] of another page return [nullptr] and change nothing. *)
Theorem fresh_pool_fills (n : nat) (disk : D) (k : Z) :
  Z.of_nat n < 2 ^ 31 →
  ∃ s, NewPage_times n (new_BufferPoolManager n disk k)
       = Ok ((λ j, Some (Z.of_nat j, Z.of_nat j)) <$> seq 0 n, s) ∧
       (∀ j, (j < n)%nat →
             pages_ s !! j = Some (new_frame (Z.of_nat j)) ∧
             page_table_ s !! Z.of_nat j = Some (Z.of_nat j)) ∧
       NewPage s = Ok (None, s) ∧
       ∀ p, ¬ (0 ≤ p < Z.of_nat n) → FetchPage p s = Ok (None, s).
Proof.
  intros Hn.
  destruct (filled_steps n 0 n (new_BufferPoolManager n disk k) Hn ltac:(lia)
              (filled_new n disk k Hn)) as (s & E & Hs).
  exists s. split; [done|]. cbn [Nat.add] in Hs.
  destruct Hs as (_ & _ & Hfree & _ & Hpages & Htable & _ & Hev).
  rewrite Nat.sub_diag in Hfree. cbn in Hfree.
  split; [done|].
  apply Evict_none in Hev.
  split; [by apply NewPage_no_victim|].
  intros p Hp. apply FetchPage_no_victim; try done.
  destruct (page_table_ s !! p) eqn:Ep; [|done].
  exfalso. apply Hp, Htable. by rewrite Ep.
Qed.

Lemma foldl_Undefined {A B} (g : outcome A → B → outcome A) (l : list B) :
  (∀ b, g Undefined b = Undefined) → foldl g Undefined l = Undefined.
Proof. intros Hg. induction l as [|b l IH]; [done|]. cbn. by rewrite Hg. Qed.

(** X26: [FlushAllPages] returns only for a pool without resident page, and
    then changes nothing.  With a resident page, its first call of
    [FlushPage] locks the [std::mutex] that [FlushAllPages] is holding:
    undefined behaviour, and no page is flushed. *)
Theorem FlushAllPages_locks_twice s :
  FlushAllPages s = if decide (page_table_ s = ∅) then Ok s else Undefined.
Proof.
  unfold FlushAllPages, lock_latch. case_decide as Ht.
  - by rewrite Ht, map_to_list_empty.
  - destruct (map_to_list (page_table_ s)) as [|kv l] eqn:El.
    { by apply map_to_list_empty_iff in El. }
    cbn [foldl mbind outcome_bind obind FlushPage_locking lock_latch].
    by apply foldl_Undefined.
Qed.
End PoolFill.

(** * Concrete instances *)

Section MoreRuns.
#[local] Existing Instance bustub_config.

Ltac by_run := vm_compute; reflexivity.

Lemma worker_read_sees_earlier_write_witness :
  let rs := [DiskRequest.mk true [Byte.x02] 4 1%nat; DiskRequest.mk false [] 3 2%nat] in
  Forall (λ r, DiskRequest.is_write_ r = true → DiskRequest.page_id_ r ≠ 3) rs ∧
  last (StartWorkerThread
          (Some (DiskRequest.mk true [Byte.x01] 3 0%nat) :: (Some <$> rs)
             ++ [Some (DiskRequest.mk false [] 3 5%nat)]) (∅ : MemoryDisk)).2
  = Some (mkCompletion 5%nat true [Byte.x01]).
Proof.
  assert (Forall (λ r, DiskRequest.is_write_ r = true → DiskRequest.page_id_ r ≠ 3)
            [DiskRequest.mk true [Byte.x02] 4 1%nat; DiskRequest.mk false [] 3 2%nat]) as H.
  { repeat constructor; simpl; intros; lia || discriminate. }
  split; [exact H|]. exact (worker_read_sees_earlier_write ∅ 3 _ _ _ _ _ H).
Defined.

Lemma NewPage_success_witness :
  ∃ s', NewPage (fresh_pool 2) = Ok (Some (0, 0), s') ∧
        0 = next_page_id_ (fresh_pool 2) ∧
        next_page_id_ s' = wrap_int32 (0 + 1) ∧
        0 ≤ 0 ∧
        pages_ s' !! Z.to_nat 0 = Some (new_frame 0) ∧
        page_table_ s' !! 0 = Some 0 ∧
        length (pages_ s') = length (pages_ (fresh_pool 2)).
Proof.
  eexists. split; [by_run|]. apply NewPage_success. by_run.
Defined.

Lemma FetchPage_miss_witness :
  ∃ s', page_table_ dirty_pool !! 5 = None ∧
        FetchPage 5 dirty_pool = Ok (Some 0, s') ∧
        0 ≤ 0 ∧
        pages_ s' !! Z.to_nat 0
        = Some (fetched_frame 5 (ReadPage 5 (replicate PAGE_SIZE Byte.x00) (disk_ s')).1) ∧
        page_table_ s' !! 5 = Some 0 ∧
        length (pages_ s') = length (pages_ dirty_pool).
Proof.
  eexists. split; [by_run|]. split; [by_run|]. apply FetchPage_miss; by_run.
Defined.

Lemma pool_exhausted_witness :
  free_list_ pinned_pool = [] ∧
  Forall (λ n, is_evictable_ n = false) (node_list_ (replacer_ pinned_pool)) ∧
  NewPage pinned_pool = Ok (None, pinned_pool) ∧
  (page_table_ pinned_pool !! 5 = None → FetchPage 5 pinned_pool = Ok (None, pinned_pool)).
Proof.
  assert (Forall (λ n, is_evictable_ n = false) (node_list_ (replacer_ pinned_pool))) as H.
  { vm_compute. repeat constructor. }
  split; [by_run|]. split; [exact H|]. apply pool_exhausted; [by_run | exact H].
Defined.

Lemma NewPage_eviction_witness :
  ∃ s', free_list_ dirty_pool = [] ∧
        NewPage dirty_pool = Ok (Some (1, 0), s') ∧
        ∃ victim rep,
          Evict (replacer_ dirty_pool) = Ok (Some 0, rep) ∧
          pages_ dirty_pool !! Z.to_nat 0 = Some victim ∧
          disk_ s' = written_back victim (disk_ dirty_pool) ∧
          page_table_ s' = <[1 := 0]> (delete (Page.page_id_ victim) (page_table_ dirty_pool)) ∧
          RecordAccess 0 rep = Ok (replacer_ s') ∧
          free_list_ s' = [] ∧
          ∀ j, j ≠ Z.to_nat 0 → pages_ s' !! j = pages_ dirty_pool !! j.
Proof.
  eexists. split; [by_run|]. split; [by_run|]. apply NewPage_eviction; by_run.
Defined.

Lemma FetchPage_eviction_witness :
  ∃ s', page_table_ dirty_pool !! 5 = None ∧
        free_list_ dirty_pool = [] ∧
        FetchPage 5 dirty_pool = Ok (Some 0, s') ∧
        ∃ victim rep,
          Evict (replacer_ dirty_pool) = Ok (Some 0, rep) ∧
          pages_ dirty_pool !! Z.to_nat 0 = Some victim ∧
          disk_ s' = written_back victim (disk_ dirty_pool) ∧
          page_table_ s' = <[5 := 0]> (page_table_ dirty_pool) ∧
          RecordAccess 0 rep = Ok (replacer_ s') ∧
          free_list_ s' = [] ∧
          ∀ j, j ≠ Z.to_nat 0 → pages_ s' !! j = pages_ dirty_pool !! j.
Proof.
  eexists. split; [by_run|]. split; [by_run|]. split; [by_run|].
  apply FetchPage_eviction; by_run.
Defined.

Lemma in_bounds_one_page_pool (f : Z) :
  page_table_ one_page_pool !! 0 = Some f → in_bounds f (pages_ one_page_pool).
Proof.
  vm_compute. intros [= <-]. split; [discriminate | reflexivity].
Qed.

Lemma FlushPage_spec_witness :
  ∃ (b : bool) s',
    FlushPage 0 one_page_pool = Ok (b, s') ∧
    (b = true ↔ is_Some (page_table_ one_page_pool !! 0)) ∧
    (b = false → s' = one_page_pool) ∧
    (b = true →
       ∃ f page, page_table_ one_page_pool !! 0 = Some f ∧
                 pages_ one_page_pool !! Z.to_nat f = Some page ∧
                 disk_ s'
                 = (WritePage (Page.page_id_ page) (Page.data_ page) (disk_ one_page_pool)).1 ∧
                 pages_ s' = <[Z.to_nat f := Page.set_is_dirty false page]> (pages_ one_page_pool) ∧
                 replacer_ s' = replacer_ one_page_pool ∧
                 page_table_ s' = page_table_ one_page_pool ∧
                 free_list_ s' = free_list_ one_page_pool ∧
                 next_page_id_ s' = next_page_id_ one_page_pool).
Proof.
  apply FlushPage_spec. exact in_bounds_one_page_pool.
Defined.

Lemma DeletePage_resident_witness :
  ∃ page,
    page_table_ dirty_pool !! 0 = Some 0 ∧ 0 ≤ 0 ∧
    pages_ dirty_pool !! Z.to_nat 0 = Some page ∧
    (Page.pin_count_ page ≠ 0 → DeletePage 0 dirty_pool = Ok (false, dirty_pool)) ∧
    (Page.pin_count_ page = 0 →
     match Remove 0 (replacer_ dirty_pool) with
     | Ok rep =>
         ∃ s', DeletePage 0 dirty_pool = Ok (true, s') ∧
               page_table_ s' = delete 0 (page_table_ dirty_pool) ∧
               pages_ s' = <[Z.to_nat 0 := empty_Page]> (pages_ dirty_pool) ∧
               free_list_ s' = free_list_ dirty_pool ++ [0] ∧
               replacer_ s' = rep ∧
               disk_ s' = written_back page (disk_ dirty_pool) ∧
               next_page_id_ s' = next_page_id_ dirty_pool
     | Aborted => DeletePage 0 dirty_pool = Aborted
     | Undefined => DeletePage 0 dirty_pool = Undefined
     end).
Proof.
  eexists. split; [by_run|]. split; [lia|]. split; [by_run|].
  apply DeletePage_resident; [by_run | lia | by_run].
Defined.

Lemma FlushPage_idempotent_witness :
  ∃ s1, FlushPage 0 dirty_pool = Ok (true, s1) ∧ FlushPage 0 s1 = Ok (true, s1).
Proof.
  eexists. split; [by_run|]. apply (FlushPage_idempotent dirty_pool). by_run.
Defined.

Lemma delete_then_fetch_round_trip_witness :
  ∃ page s1 s2,
    page_table_ dirty_pool !! Page.page_id_ page = Some 0 ∧ 0 ≤ 0 ∧
    pages_ dirty_pool !! Z.to_nat 0 = Some page ∧
    Page.is_dirty_ page = true ∧
    DeletePage (Page.page_id_ page) dirty_pool = Ok (true, s1) ∧
    FetchPage (Page.page_id_ page) s1 = Ok (Some 0, s2) ∧
    pages_ s2 !! Z.to_nat 0 = Some (fetched_frame (Page.page_id_ page) (Page.data_ page)).
Proof.
  exists (Page.mk AB_page 0 0 true). eexists _, _.
  split; [by_run|]. split; [lia|]. split; [by_run|]. split; [done|].
  split; [by_run|]. split; [by_run|].
  eapply (delete_then_fetch_round_trip dirty_pool _ _ 0); first [lia | by_run].
Defined.

(** Without the first condition of X21: the page table has page 7 in
    frame 0, the frame carries page id 0; the bytes are written under page 0
    and the fetch of page 7 reads zeroes. *)
Lemma delete_then_fetch_stale_page_id :
  stale_page_id_run
  = Ok (true, Some 0, replicate PAGE_SIZE Byte.x00, None, Some AB_page).
Proof. by_run. Qed.

(** Without the second condition of X22: [NewPage] hands out page id 0 for
    the frame it takes from page 0; the bytes are on disk, and the fetch of
    page 0 hits the zeroed frame of the new page. *)
Lemma evict_then_fetch_reused_page_id :
  reused_page_id_run
  = Ok (Some (0, 0), Some 0, replicate PAGE_SIZE Byte.x00, Some AB_page).
Proof. by_run. Qed.

Lemma two_page_pool_others (j : nat) (pg : Page) :
  j ≠ Z.to_nat 0 → pages_ two_page_pool !! j = Some pg →
  Page.is_dirty_ pg = true → Page.page_id_ pg ≠ 0.
Proof.
  intros Hj. destruct j as [|[|j]]; [done| |].
  - vm_compute. intros [= <-]. discriminate.
  - vm_compute. discriminate.
Qed.

Lemma evict_then_fetch_round_trip_witness :
  ∃ s1 s2,
    free_list_ two_page_pool = [] ∧
    pages_ two_page_pool !! Z.to_nat 0 = Some (Page.mk AB_page 0 0 true) ∧
    NewPage two_page_pool = Ok (Some (2, 0), s1) ∧
    FetchPage 0 s1 = Ok (Some 1, s2) ∧
    pages_ s2 !! Z.to_nat 1 = Some (fetched_frame 0 AB_page).
Proof.
  eexists _, _. split; [by_run|]. split; [by_run|]. split; [by_run|]. split; [by_run|].
  eapply (evict_then_fetch_round_trip two_page_pool _ _ 2 0 1 (Page.mk AB_page 0 0 true));
    first [exact two_page_pool_others | discriminate | by_run].
Defined.

Lemma pinned_pool_reachable : pool_reachable pinned_pool.
Proof.
  apply (pool_NewPage (fresh_pool 1) (Some (0, 0))); [|by_run].
  by apply pool_new.
Qed.


Lemma deleted_pool_reachable : pool_reachable deleted_pool.
Proof.
  apply (pool_DeletePage unpinned_pool 0 true); [|by_run].
  apply (pool_UnpinPage pinned_pool 0 false true); [|by_run].
  exact pinned_pool_reachable.
Qed.

Lemma pool_memory_safety_witness :
  pool_reachable deleted_pool ∧
  FetchPage 0 deleted_pool ≠ Undefined ∧
  UnpinPage 0 true deleted_pool ≠ Undefined ∧
  FlushPage 0 deleted_pool ≠ Undefined ∧
  DeletePage 0 deleted_pool ≠ Undefined ∧
  (NewPage deleted_pool = Undefined ↔
   free_list_ deleted_pool ≠ [] ∧
   ¬ in_bounds (next_page_id_ deleted_pool) (pages_ deleted_pool)).
Proof.
  split; [exact deleted_pool_reachable|].
  apply pool_memory_safety. exact deleted_pool_reachable.
Defined.

Lemma pool_frame_ids_in_bounds_witness :
  pool_reachable deleted_pool ∧
  Z.of_nat (length (pages_ deleted_pool)) = pool_size_ deleted_pool ∧
  Forall (λ f, in_bounds f (pages_ deleted_pool)) (free_list_ deleted_pool) ∧
  (∀ p f, page_table_ deleted_pool !! p = Some f → in_bounds f (pages_ deleted_pool)) ∧
  Forall (λ n, in_bounds (fid_ n) (pages_ deleted_pool)) (node_list_ (replacer_ deleted_pool)).
Proof.
  split; [exact deleted_pool_reachable|].
  apply pool_frame_ids_in_bounds. exact deleted_pool_reachable.
Defined.

Lemma fresh_pool_fills_witness :
  Z.of_nat 3 < 2 ^ 31 ∧
  ∃ s, NewPage_times 3 (fresh_pool 3)
       = Ok ((λ j, Some (Z.of_nat j, Z.of_nat j)) <$> seq 0 3, s) ∧
       (∀ j, (j < 3)%nat →
             pages_ s !! j = Some (new_frame (Z.of_nat j)) ∧
             page_table_ s !! Z.of_nat j = Some (Z.of_nat j)) ∧
       NewPage s = Ok (None, s) ∧
       ∀ p, ¬ (0 ≤ p < Z.of_nat 3) → FetchPage p s = Ok (None, s).
Proof.
  split; [lia|]. apply fresh_pool_fills. lia.
Defined.
End MoreRuns.
